(** * styled-system-dark-mode: a shallow embedding of [src/utils.js] and
      [src/index.js], and the properties of the theme pipeline.

    Modelling conventions.
    - A JavaScript string is a [string]; each [ascii] stands for one UTF-16
      code unit in the range U+0000..U+00FF.
    - A JavaScript object is the list of its own enumerable string-keyed
      properties, in the order [Object.keys] enumerates them (array-index
      keys first, ascending, then the other keys in insertion order).
    - The built-in prototypes are as ECMAScript defines them.  In the
      tree transformations every key read comes from [Object.keys] of
      the object read, so every read is of an own property.  In
      [mergeThemes], where a key of one object is read on another, a
      read that reaches an inherited member ends the evaluation with
      the outcome [Inherited].
    - [undefined] results are [None]; a thrown [TypeError] is an explicit
      error value. *)

From Stdlib Require Import String Ascii List ZArith NArith Lia Bool.
From Stdlib Require Import DecimalString.

#[global] Set Warnings "-register-all".
#[global] Set Warnings "-automation".

Import ListNotations.
Open Scope list_scope.
Open Scope string_scope.

(* ================================================================== *)
(** ** JavaScript strings *)
(* ================================================================== *)

Module JsString.

(** Code unit of a character. *)
Definition code (c : ascii) : nat := nat_of_ascii c.

(** The character class [[A-Z_ ]] of the name deriver's regular
    expression. *)
Definition isBoundary (c : ascii) : bool :=
  ((65 <=? code c)%nat && (code c <=? 90)%nat)
  || Ascii.eqb c "_"%char || Ascii.eqb c " "%char.

(** [String.prototype.toLowerCase] on one code unit of U+0000..U+00FF:
    A-Z, and the Latin-1 capitals U+00C0..U+00DE without the
    multiplication sign U+00D7, move up by 32. *)
Definition lowerChar (c : ascii) : ascii :=
  let n := code c in
  if ((65 <=? n)%nat && (n <=? 90)%nat)
     || ((192 <=? n)%nat && (n <=? 222)%nat && negb (n =? 215)%nat)
  then ascii_of_nat (n + 32) else c.

Fixpoint toLowerCase (s : string) : string :=
  match s with
  | EmptyString => EmptyString
  | String c r => String (lowerChar c) (toLowerCase r)
  end.

(** [Array.prototype.join]. *)
Fixpoint join (sep : string) (l : list string) : string :=
  match l with
  | [] => ""
  | [x] => x
  | x :: r => x ++ sep ++ join sep r
  end.

(** Puts a character in front of the first segment. *)
Definition consHead (c : ascii) (l : list string) : list string :=
  match l with
  | [] => [String c ""]
  | x :: r => String c x :: r
  end.

(** The segments of the remainder of a string once the current segment
    has begun: a zero-width match of [(?=[A-Z_ ])] at a position [q]
    behind the segment's start closes the segment at [q]. *)
Fixpoint splitRest (s : string) : list string :=
  match s with
  | EmptyString => [""]
  | String c r =>
      if isBoundary c then "" :: consHead c (splitRest r)
      else consHead c (splitRest r)
  end.

(** [s.split(/(?=[A-Z_ ])/g)].  The empty string yields [[""]] (the
    pattern does not match it).  Otherwise the split loop skips a
    zero-width match at the start of the current segment, so index 0 is
    never a split point, and after a split at [q] the character at [q]
    opens the next segment. *)
Definition splitBoundaries (s : string) : list string :=
  match s with
  | EmptyString => [""]
  | String c r => consHead c (splitRest r)
  end.

(** [s.substring(start, end)]: both indices are clamped to
    [0 .. s.length] and swapped when they are out of order. *)
Definition clampIndex (s : string) (i : Z) : nat :=
  Z.to_nat (Z.min (Z.max 0 i) (Z.of_nat (String.length s))).

Definition jsSubstring (start fin : Z) (s : string) : string :=
  let a := clampIndex s start in
  let b := clampIndex s fin in
  String.substring (Nat.min a b) (Nat.max a b - Nat.min a b) s.

Definition startsWith (p s : string) : bool := String.prefix p s.

End JsString.

(* ================================================================== *)
(** ** JavaScript objects: ordered own properties *)
(* ================================================================== *)

Module JsObject.

(** Value of a string of decimal digits, [None] when another character
    occurs. *)
Fixpoint digitsValue (acc : N) (s : string) : option N :=
  match s with
  | EmptyString => Some acc
  | String c r =>
      let n := nat_of_ascii c in
      if ((48 <=? n)%nat && (n <=? 57)%nat)
      then digitsValue (acc * 10 + N.of_nat (n - 48))%N r
      else None
  end.

(** [arrayIndex k] is [Some n] when the property key [k] is an array
    index: the canonical decimal form of an integer [n < 2^32 - 1]. *)
Definition arrayIndex (k : string) : option N :=
  match k with
  | EmptyString => None
  | String c r =>
      if Ascii.eqb c "0"%char && negb (String.eqb r "") then None
      else match digitsValue 0 k with
           | Some n => if (n <? 4294967295)%N then Some n else None
           | None => None
           end
  end.

Section Props.
Context {V : Type}.

Definition obj := list (string * V).

(** [Object.keys(o)]. *)
Definition keys (o : obj) : list string := map fst o.

(** [o[k]] for an own property, [None] for [undefined]. *)
Fixpoint get (k : string) (o : obj) : option V :=
  match o with
  | [] => None
  | (k', v) :: r => if String.eqb k k' then Some v else get k r
  end.

Definition has (k : string) (o : obj) : bool :=
  match get k o with Some _ => true | None => false end.

(** Overwrites the value of an own property, keeping its place. *)
Fixpoint replace (k : string) (v : V) (o : obj) : obj :=
  match o with
  | [] => []
  | (k', v') :: r =>
      if String.eqb k k' then (k', v) :: r else (k', v') :: replace k v r
  end.

(** Places a new array-index key [n] before the first property that is
    no array index or has a larger index. *)
Fixpoint insertIndex (n : N) (k : string) (v : V) (o : obj) : obj :=
  match o with
  | [] => [(k, v)]
  | (k', v') :: r =>
      match arrayIndex k' with
      | Some m => if (m <? n)%N then (k', v') :: insertIndex n k v r
                  else (k, v) :: (k', v') :: r
      | None => (k, v) :: (k', v') :: r
      end
  end.

(** [{ ...o, [k]: v }]: an existing property keeps its place and takes
    the new value; a new one is created, which lists it among the array
    indices or at the end. *)
Definition set (k : string) (v : V) (o : obj) : obj :=
  if has k o then replace k v o
  else match arrayIndex k with
       | Some n => insertIndex n k v o
       | None => (o ++ [(k, v)])%list
       end.

(** [{ ...a, ...b }]. *)
Definition spread (a b : obj) : obj :=
  fold_left (fun acc kv => set (fst kv) (snd kv) acc) b a.

End Props.

Arguments obj : clear implicits.

(** [keyBefore k1 k2]: a property created under [k1] is enumerated
    before one created later under [k2]. *)
Definition keyBefore (k1 k2 : string) : bool :=
  match arrayIndex k1, arrayIndex k2 with
  | Some a, Some b => (a <? b)%N
  | Some _, None => true
  | None, Some _ => false
  | None, None => true
  end.

Fixpoint distinct (l : list string) : bool :=
  match l with
  | [] => true
  | k :: r => negb (existsb (String.eqb k) r) && distinct r
  end.

Fixpoint ordered (l : list string) : bool :=
  match l with
  | [] => true
  | k :: r => forallb (keyBefore k) r && ordered r
  end.

(** The key list of an object: no key twice, keys in enumeration
    order. *)
Definition wfKeys (l : list string) : bool := distinct l && ordered l.


End JsObject.

(* ================================================================== *)
(** ** [src/utils.js] *)
(* ================================================================== *)

Module Utils.
Import JsString JsObject.

(** [jsNameToCssName = (name) =>
      name.split(/(?=[A-Z_ ])/g).join('-').toLowerCase()]. *)
Definition jsNameToCssName (name : string) : string :=
  toLowerCase (join "-" (splitBoundaries name)).


(** A theme tree, and likewise a value map and a reference map: a string
    leaf or a nested object. *)
Inductive Tree : Type :=
| Leaf (s : string)
| Node (props : list (string * Tree)).

(** A node [{ value, var, refVar }] of a variable tree; [value] is a
    string or a nested object of such nodes. *)
Inductive VarNode : Type :=
| VarLeaf (value : string) (var refVar : string)
| VarTree (value : list (string * VarNode)) (var refVar : string).

Definition var (n : VarNode) : string :=
  match n with VarLeaf _ v _ => v | VarTree _ v _ => v end.

Definition refVar (n : VarNode) : string :=
  match n with VarLeaf _ _ r => r | VarTree _ _ r => r end.

(** Truthiness of an optional string argument: [undefined] and [""]
    are falsy. *)
Definition truthyStr (s : option string) : bool :=
  match s with
  | None => false
  | Some x => negb (String.eqb x "")
  end.

Definition strOf (s : option string) : string :=
  match s with None => "" | Some x => x end.

(** [prefix ? `${prefix}-` : ''] *)
Definition prefixStr (prefix : option string) : string :=
  if truthyStr prefix then strOf prefix ++ "-" else "".

(** [suffix ? `-${suffix}` : ''] *)
Definition suffixStr (suffix : option string) : string :=
  if truthyStr suffix then "-" ++ strOf suffix else "".

(** [`${prefixStr}${jsNameToCssName(key)}${suffixStr}`] *)
Definition cssName (prefix suffix : option string) (key : string) : string :=
  prefixStr prefix ++ jsNameToCssName key ++ suffixStr suffix.

(** The property value [{ value, var, refVar }] the reduce step of
    [makeObjectVariables] builds for [key] when [obj[key]] is [v]; for
    a nested object, [value] is the same reduce over that object with
    the prefix [`${prefixStr}${key}`]. *)
Fixpoint variableOf (suffix : option string) (v : Tree)
  (prefix : option string) (key : string) {struct v} : VarNode :=
  let name := cssName prefix suffix key in
  match v with
  | Leaf s => VarLeaf s ("--" ++ name) ("var(--" ++ name ++ ")")
  | Node sub =>
      VarTree
        (fold_left
           (fun accum kv =>
              set (fst kv)
                (variableOf suffix (snd kv)
                   (Some (prefixStr prefix ++ key)) (fst kv))
                accum)
           sub [])
        ("--" ++ name) ("var(--" ++ name ++ ")")
  end.

(** [makeObjectVariables(obj, prefix, suffix)]: a reduce over
    [Object.keys(obj)]; each step reads [obj[key]], here the value
    listed with the key. *)
Definition makeObjectVariables (o : obj Tree) (prefix suffix : option string)
  : obj VarNode :=
  fold_left
    (fun accum kv =>
       set (fst kv) (variableOf suffix (snd kv) prefix (fst kv)) accum)
    o [].

(** [typeof val === 'string' ? val : varColorMap(val)] for the [value]
    of a node. *)
Fixpoint colorOf (n : VarNode) : Tree :=
  match n with
  | VarLeaf val _ _ => Leaf val
  | VarTree val _ _ =>
      Node (fold_left
              (fun accum kv => set (var (snd kv)) (colorOf (snd kv)) accum)
              val [])
  end.

(** [varColorMap(obj)]: keyed by each node's [var]. *)
Definition varColorMap (o : obj VarNode) : obj Tree :=
  fold_left (fun accum kv => set (var (snd kv)) (colorOf (snd kv)) accum) o [].

(** [typeof obj[key].value === 'string' ? obj[key].refVar
      : keyVarMap(obj[key].value)]. *)
Fixpoint referenceOf (n : VarNode) : Tree :=
  match n with
  | VarLeaf _ _ r => Leaf r
  | VarTree val _ _ =>
      Node (fold_left
              (fun accum kv => set (fst kv) (referenceOf (snd kv)) accum)
              val [])
  end.

(** [keyVarMap(obj)]: keyed by the original key. *)
Definition keyVarMap (o : obj VarNode) : obj Tree :=
  fold_left (fun accum kv => set (fst kv) (referenceOf (snd kv)) accum) o [].

(** [typeof obj[key] === 'string' ? { [key]: obj[key] }
      : treeWalk(obj[key])]. *)
Fixpoint flatOf (key : string) (v : Tree) : obj string :=
  match v with
  | Leaf s => [(key, s)]
  | Node sub =>
      fold_left (fun accum kv => spread accum (flatOf (fst kv) (snd kv)))
        sub []
  end.

(** [treeWalk(obj)]: every step spreads the one leaf or the flattened
    subtree over the accumulator. *)
Definition treeWalk (o : obj Tree) : obj string :=
  fold_left (fun accum kv => spread accum (flatOf (fst kv) (snd kv))) o [].

Definition newline : string := String (ascii_of_nat 10) "".

(** [`${kv.property}: ${kv.value};`] *)
Definition declaration (kv : string * string) : string :=
  fst kv ++ ": " ++ snd kv ++ ";".

(** [objectToCss(obj)] *)
Definition objectToCss (o : obj string) : string :=
  join newline (map declaration o).

End Utils.

(* ================================================================== *)
(** ** [src/index.js] *)
(* ================================================================== *)

Module Index.
Import JsString JsObject Utils.

(** The live rendering environment, when there is one:
    [window.getComputedStyle(window.document.documentElement)
       .getPropertyValue(name)]. *)
Record Window : Type := { getPropertyValue : string -> string }.

(** [const lookupVal = value.substring(4, value.length - 1)] *)
Definition lookupVal (value : string) : string :=
  jsSubstring 4 (Z.of_nat (String.length value) - 1) value.

(** [resolveFactory(defaultVars)(value)]; [window] is the ambient
    global, [None] when [typeof window === 'undefined'].  The result is
    a string or [undefined]. *)
Definition resolveFactory (defaultVars : obj string)
  (window : option Window) (value : string) : option string :=
  if negb (String.eqb (jsSubstring 0 5 value) "var(--") then Some value
  else
    let lookupVal := lookupVal value in
    match window with
    | None => get lookupVal defaultVars
    | Some w => Some (getPropertyValue w lookupVal)
    end.

(** What a component renders: the fragment
    [<><style dangerouslySetInnerHTML={{ __html: css }} />{children}</>]. *)
Inductive Fragment (C : Type) : Type :=
| StyleThen (innerHTML : string) (children : C).
Arguments StyleThen {C} innerHTML children.

(** [darkModeProviderFactory(css)] *)
Definition darkModeProviderFactory (css : string) (C : Type) (children : C)
  : Fragment C :=
  StyleThen css children.

(** What the default export returns. *)
Record DarkMode : Type := {
  vars : obj Tree;
  css : string;
  resolve : option Window -> string -> option string;
  DarkModeProvider : forall C : Type, C -> Fragment C
}.

(** [x || {}] for an optional object. *)
Definition orEmpty {V : Type} (o : option (obj V)) : obj V :=
  match o with Some x => x | None => [] end.

(** The default export [({ dark, light }) => ...]. *)
Definition makeDarkMode (dark light : option (obj Tree)) : DarkMode :=
  let darkModeVars := makeObjectVariables (orEmpty dark) None None in
  let lightModeVars := makeObjectVariables (orEmpty light) None None in
  let vars := spread (spread [] (keyVarMap darkModeVars))
                     (keyVarMap lightModeVars) in
  let darkModeCss := objectToCss (treeWalk (varColorMap darkModeVars)) in
  let lightModeCss := objectToCss (treeWalk (varColorMap lightModeVars)) in
  let css := ":root { " ++ lightModeCss ++ " }"
             ++ "@media (prefers-color-scheme: dark){ :root { "
             ++ darkModeCss ++ " } }" in
  {| vars := vars;
     css := css;
     resolve := resolveFactory (treeWalk (varColorMap lightModeVars));
     DarkModeProvider := darkModeProviderFactory css |}.

(** *** [mergeThemes] *)

(** The values a theme object passed to [mergeThemes] may hold.
    Numbers are the integer-valued ones. *)
Inductive JSValue : Type :=
| VUndefined
| VNull
| VBool (b : bool)
| VNum (n : Z)
| VStr (s : string)
| VObj (props : list (string * JSValue)).

(** Outcome of an evaluation: a value, a thrown [TypeError], or
    [Inherited] when the evaluation read a member that the receiver
    inherits, or may inherit, from a built-in prototype.  Such a member
    is a built-in function or object; what the code does with it is not
    modelled, so nothing is stated about an evaluation that ends in
    [Inherited]. *)
Inductive Completion (A : Type) : Type :=
| Returned (a : A)
| TypeError
| Inherited.
Arguments Returned {A} a.
Arguments TypeError {A}.
Arguments Inherited {A}.

Definition bind {A B : Type} (c : Completion A) (f : A -> Completion B)
  : Completion B :=
  match c with
  | Returned a => f a
  | TypeError => TypeError
  | Inherited => Inherited
  end.

Definition truthy (v : JSValue) : bool :=
  match v with
  | VUndefined | VNull => false
  | VBool b => b
  | VNum n => negb (n =? 0)%Z
  | VStr s => negb (String.eqb s "")
  | VObj _ => true
  end.

(** [v instanceof Object] *)
Definition instanceofObject (v : JSValue) : bool :=
  match v with VObj _ => true | _ => false end.

Definition decimal (n : nat) : string :=
  NilEmpty.string_of_uint (Nat.to_uint n).

(** The characters of a string as the properties ["0"], ["1"], ... *)
Fixpoint charProps (i : nat) (s : string) : obj JSValue :=
  match s with
  | EmptyString => []
  | String c r => (decimal i, VStr (String c "")) :: charProps (S i) r
  end.

(** The own enumerable properties [...v] copies. *)
Definition ownProps (v : JSValue) : obj JSValue :=
  match v with
  | VObj props => props
  | VStr s => charProps 0 s
  | _ => []
  end.

Definition orUndefined (o : option JSValue) : JSValue :=
  match o with Some v => v | None => VUndefined end.

(** The names of the members an object inherits from
    [Object.prototype]. *)
Definition objectPrototypeNames : list string :=
  [ "constructor"; "hasOwnProperty"; "isPrototypeOf"; "propertyIsEnumerable";
    "toLocaleString"; "toString"; "valueOf"; "__proto__";
    "__defineGetter__"; "__defineSetter__";
    "__lookupGetter__"; "__lookupSetter__" ].

Definition inheritedByObject (key : string) : bool :=
  existsb (String.eqb key) objectPrototypeNames.

(** [v[key]].  Reading a property of [undefined] or [null] throws.  An
    object gives its own property; without one, the member of
    [Object.prototype] of that name, and [undefined] when there is
    none.  A string gives [length] and its characters; any other read
    of a string, and every read of a number or a boolean, goes to the
    prototype of the wrapper. *)
Definition getProp (v : JSValue) (key : string) : Completion JSValue :=
  match v with
  | VUndefined | VNull => TypeError
  | VObj props =>
      match get key props with
      | Some x => Returned x
      | None => if inheritedByObject key then Inherited else Returned VUndefined
      end
  | VStr s =>
      if String.eqb key "length" then Returned (VNum (Z.of_nat (String.length s)))
      else match get key (charProps 0 s) with
           | Some x => Returned x
           | None => Inherited
           end
  | VBool _ | VNum _ => Inherited
  end.

(** [Object.keys({ ...oldThemeObject, ...newThemeObject })] *)
Definition mergedKeys (oldThemeObject newThemeObject : JSValue) : list string :=
  keys (spread (spread [] (ownProps oldThemeObject)) (ownProps newThemeObject)).

(** The reduce of [mergeThemes], given the value of the step's
    expression for each key. *)
Definition mergeReduce (valueAt : string -> Completion JSValue)
  (ks : list string) : Completion JSValue :=
  bind
    (fold_left
       (fun accum key =>
          bind accum (fun acc =>
          bind (valueAt key) (fun v => Returned (set key v acc))))
       ks (Returned []))
    (fun o => Returned (VObj o)).

(** [a || b], with [b] evaluated only when [a] is falsy. *)
Definition orElse (a : JSValue) (b : Completion JSValue) : Completion JSValue :=
  if truthy a then Returned a else b.

(** [mergeThemes(oldThemeObject, newThemeObject)].  The step's
    expression for [key],
    [newThemeObject[key] instanceof Object
       ? mergeThemes(oldThemeObject[key], newThemeObject[key] || {})
       : newThemeObject[key] || oldThemeObject[key]],
    is computed by [valueIn], which reads [newThemeObject[key]] off the
    property list so that the recursive call is on a listed value (an
    object is truthy, hence [newThemeObject[key] || {}] is that value);
    a key the list lacks reads the inherited member of that name, or
    [undefined].  A [newThemeObject] that is no object has no own
    object-valued property. *)
Fixpoint mergeThemes (oldThemeObject newThemeObject : JSValue)
  {struct newThemeObject} : Completion JSValue :=
  let valueAt : string -> Completion JSValue :=
    match newThemeObject with
    | VObj props =>
        fun key =>
          (fix valueIn (l : list (string * JSValue)) : Completion JSValue :=
             match l with
             | [] =>
                 if inheritedByObject key then Inherited
                 else orElse VUndefined (getProp oldThemeObject key)
             | (k, nv) :: r =>
                 if String.eqb key k then
                   match nv with
                   | VObj _ =>
                       bind (getProp oldThemeObject key)
                            (fun ov => mergeThemes ov nv)
                   | _ => orElse nv (getProp oldThemeObject key)
                   end
                 else valueIn r
             end) props
    | _ =>
        fun key =>
          bind (getProp newThemeObject key)
               (fun nv => orElse nv (getProp oldThemeObject key))
    end in
  mergeReduce valueAt (mergedKeys oldThemeObject newThemeObject).

End Index.

(* ================================================================== *)
(** ** The notions the properties are stated with *)
(* ================================================================== *)

Module Theme.
Import JsString JsObject Utils Index.

(** Every object of a tree lists its keys the way JavaScript enumerates
    them. *)
Fixpoint wfTree (t : Tree) : bool :=
  match t with
  | Leaf _ => true
  | Node props =>
      wfKeys (map fst props) && forallb (fun kv => wfTree (snd kv)) props
  end.

Definition wfObj (o : obj Tree) : bool := wfTree (Node o).

(** Key structure of a tree: the keys of every level, and which of
    them hold a leaf and which a subtree. *)
Inductive Shape : Type :=
| SLeaf
| SNode (props : list (string * Shape)).

Fixpoint shapeOf (t : Tree) : Shape :=
  match t with
  | Leaf _ => SLeaf
  | Node props => SNode (map (fun kv => (fst kv, shapeOf (snd kv))) props)
  end.


(** Property names of the leaves of a variable tree, in depth-first
    order. *)
Fixpoint leafVars (n : VarNode) : list string :=
  match n with
  | VarLeaf _ v _ => [v]
  | VarTree sub _ _ => flat_map (fun kv => leafVars (snd kv)) sub
  end.

Definition leafVarsOf (o : obj VarNode) : list string :=
  flat_map (fun kv => leafVars (snd kv)) o.


(** The declarations [(--name, value)] of the leaves at and below the
    entry [key] of an object walked under [prefix], depth first in key
    order. *)
Fixpoint declarationsOf (suffix : option string) (t : Tree)
  (prefix : option string) (key : string) : list (string * string) :=
  match t with
  | Leaf s => [("--" ++ cssName prefix suffix key, s)]
  | Node sub =>
      flat_map
        (fun kv =>
           declarationsOf suffix (snd kv)
             (Some (prefixStr prefix ++ key)) (fst kv))
        sub
  end.

Definition declarations (o : obj Tree) (prefix suffix : option string)
  : list (string * string) :=
  flat_map (fun kv => declarationsOf suffix (snd kv) prefix (fst kv)) o.

(** Below the entry [key]: the entries of one object never share a
    generated name. *)
Fixpoint siblingsDistinctOf (suffix : option string) (t : Tree)
  (prefix : option string) (key : string) : bool :=
  match t with
  | Leaf _ => true
  | Node sub =>
      distinct
        (map (fun kv => cssName (Some (prefixStr prefix ++ key)) suffix (fst kv))
             sub)
      && forallb
           (fun kv =>
              siblingsDistinctOf suffix (snd kv)
                (Some (prefixStr prefix ++ key)) (fst kv))
           sub
  end.

(** No two entries of one object, and no two leaves of the tree, get
    the same generated property name. *)
Definition namesDistinct (o : obj Tree) (prefix suffix : option string) : bool :=
  distinct (map (fun kv => cssName prefix suffix (fst kv)) o)
  && forallb (fun kv => siblingsDistinctOf suffix (snd kv) prefix (fst kv)) o
  && distinct (map fst (declarations o prefix suffix)).

(** The stylesheet text as the interface describes it: the light
    declarations in a [:root] block, then the dark ones in the
    media-query block. *)
Definition stylesheet (dark light : obj Tree) : string :=
  ":root { " ++ join newline (map declaration (declarations light None None))
  ++ " }" ++ "@media (prefers-color-scheme: dark){ :root { "
  ++ join newline (map declaration (declarations dark None None)) ++ " } }".

(** The name deriver by characters: a hyphen goes in front of every
    character of [[A-Z_ ]] behind the first character, and the whole is
    lowercased. *)
Fixpoint hyphenateRest (s : string) : string :=
  match s with
  | EmptyString => EmptyString
  | String c r =>
      if isBoundary c then String "-" (String c (hyphenateRest r))
      else String c (hyphenateRest r)
  end.

Definition hyphenate (s : string) : string :=
  match s with
  | EmptyString => EmptyString
  | String c r => String c (hyphenateRest r)
  end.










(** A key that is no array index is enumerated in creation order. *)
Definition nonIndex (k : string) : Prop := arrayIndex k = None.

(** Flattening the value map of one entry gives the declarations of
    the leaves below it, when no names collide there. *)
Definition flatOK (t : Tree) : Prop :=
  forall suffix prefix key,
    wfTree t = true ->
    siblingsDistinctOf suffix t prefix key = true ->
    NoDup (map fst (declarationsOf suffix t prefix key)) ->
    flatOf ("--" ++ cssName prefix suffix key)
           (colorOf (variableOf suffix t prefix key))
    = declarationsOf suffix t prefix key.

End Theme.

(* ================================================================== *)
(** ** Example inputs *)
(* ================================================================== *)

Module Examples.
Import JsString JsObject Utils Index Theme.

(** The theme of the README, light variant. *)
Definition readmeTheme : obj Tree :=
  [ ("text", Leaf "black");
    ("bg", Leaf "white");
    ("grad", Node [ ("skeleton", Leaf "linear-gradient(270deg, gray 0, white 50%)") ]) ].

(** The README theme, dark variant. *)
Definition readmeDark : obj Tree :=
  [ ("text", Leaf "white");
    ("bg", Leaf "black");
    ("grad", Node [ ("skeleton", Leaf "linear-gradient(270deg, black 0, gray 50%)") ]) ].

(** [{ text: "white" }] and [{ text: "black" }]. *)
Definition textDark : obj Tree := [ ("text", Leaf "white") ].
Definition textLight : obj Tree := [ ("text", Leaf "black") ].



(** [{ foo: "2", x: "3", Foo: { a: "1" } }]: the subtree [Foo] gets the
    property name of the leaf [foo]. *)
Definition shadowTheme : obj Tree :=
  [ ("foo", Leaf "2"); ("x", Leaf "3"); ("Foo", Node [ ("a", Leaf "1") ]) ].

(** [{ a: "x" }] against [{ a: { b: "y" } }]. *)
Definition leafDark : obj Tree := [ ("a", Leaf "x") ].
Definition subtreeLight : obj Tree := [ ("a", Node [ ("b", Leaf "y") ]) ].

(** [{ a: 1, b: { c: 2, d: 3 } }] and [{ b: { c: 9 } }]. *)
Definition oldTheme : JSValue :=
  VObj [ ("a", VNum 1); ("b", VObj [ ("c", VNum 2); ("d", VNum 3) ]) ].
Definition newTheme : JSValue := VObj [ ("b", VObj [ ("c", VNum 9) ]) ].

(** [{ b: { c: "" } }] and [{ b: { c: { d: 9 } } }]: a subtree under a
    key the old tree [{ a: 1 }] lacks. *)
Definition newFalsy : JSValue := VObj [ ("b", VObj [ ("c", VStr "") ]) ].
Definition newDeep : JSValue :=
  VObj [ ("b", VObj [ ("c", VObj [ ("d", VNum 9) ]) ]) ].
Definition oldFlat : JSValue := VObj [ ("a", VNum 1) ].

End Examples.

(* ================================================================== *)
(** ** Readings of the variable tree and of merged themes *)
(* ================================================================== *)

Module Views.
Import JsString JsObject Utils Index Theme.

(** The tree of the [value] fields of a variable tree node. *)
Fixpoint valueOf (n : VarNode) : Tree :=
  match n with
  | VarLeaf val _ _ => Leaf val
  | VarTree val _ _ => Node (map (fun kv => (fst kv, valueOf (snd kv))) val)
  end.

Definition valuesOf (o : obj VarNode) : obj Tree :=
  map (fun kv => (fst kv, valueOf (snd kv))) o.

(** Every node at and below [n] has a [var] that starts with two
    hyphens and the [refVar] [var(<var>)]. *)
Fixpoint refsWellFormed (n : VarNode) : bool :=
  startsWith "--" (var n)
  && String.eqb (refVar n) ("var(" ++ var n ++ ")")
  && match n with
     | VarLeaf _ _ _ => true
     | VarTree val _ _ => forallb (fun kv => refsWellFormed (snd kv)) val
     end.


(** The leaf strings of a tree, depth first in key order. *)
Fixpoint leafValues (t : Tree) : list string :=
  match t with
  | Leaf s => [s]
  | Node props => flat_map (fun kv => leafValues (snd kv)) props
  end.

(** The pairs [(var, value)] of the leaves of a variable tree, depth
    first in key order. *)
Fixpoint leafEntries (n : VarNode) : list (string * string) :=
  match n with
  | VarLeaf val v _ => [(v, val)]
  | VarTree val _ _ => flat_map (fun kv => leafEntries (snd kv)) val
  end.

Definition leafEntriesOf (o : obj VarNode) : list (string * string) :=
  flat_map (fun kv => leafEntries (snd kv)) o.

(** [undefined] and [null]: the values whose properties cannot be
    read. *)
Definition nullish (v : JSValue) : bool :=
  match v with
  | VUndefined | VNull => true
  | _ => false
  end.






(** Entries that agree on the key and on the key structure below it. *)
Definition sameEntry (P : Tree -> Tree -> Prop) (a b : string * Tree) : Prop :=
  fst a = fst b /\ P (snd a) (snd b).

(** One step of the reduce of [mergeThemes]. *)
Definition mergeStep (valueAt : string -> Completion JSValue)
  (accum : Completion (obj JSValue)) (key : string) : Completion (obj JSValue) :=
  bind accum (fun acc =>
  bind (valueAt key) (fun v => Returned (set key v acc))).


End Views.

(* ================================================================== *)
(** ** Facts on objects *)
(* ================================================================== *)

Module JsObjectFacts.
Import JsObject.
Local Open Scope list_scope.

Lemma distinct_NoDup (l : list string) : distinct l = true -> NoDup l.
Proof.
  induction l as [|k r IH]; simpl; intros H; [constructor|].
  apply andb_prop in H as [Hk Hr].
  constructor; [|auto].
  intros Hin.
  assert (E : existsb (String.eqb k) r = true).
  { apply existsb_exists. exists k. split; [exact Hin | apply String.eqb_refl]. }
  rewrite E in Hk. discriminate.
Qed.

Lemma NoDup_distinct (l : list string) : NoDup l -> distinct l = true.
Proof.
  induction 1 as [|k r Hk _ IH]; simpl; [reflexivity|].
  rewrite IH, andb_true_r.
  destruct (existsb (String.eqb k) r) eqn:E; [|reflexivity].
  apply existsb_exists in E as [x [Hx Ex]].
  apply String.eqb_eq in Ex. subst x. contradiction.
Qed.

Lemma ordered_before (l1 l2 : list string) (k : string) :
  ordered (l1 ++ k :: l2) = true ->
  Forall (fun k' => keyBefore k' k = true) l1.
Proof.
  induction l1 as [|x r IH]; simpl; intros H; [constructor|].
  apply andb_prop in H as [Hx Hr].
  constructor; [|auto].
  rewrite forallb_forall in Hx. apply Hx, in_elt.
Qed.

Lemma nonIndex_ordered (l : list string) :
  Forall (fun k => arrayIndex k = None) l -> ordered l = true.
Proof.
  induction 1 as [|k r Hk Hr IH]; simpl; [reflexivity|].
  rewrite IH, andb_true_r.
  apply forallb_forall. intros x Hx.
  rewrite Forall_forall in Hr.
  unfold keyBefore. rewrite Hk, (Hr x Hx). reflexivity.
Qed.

Lemma wfKeys_app_inv (l1 l2 : list string) (k : string) :
  wfKeys (l1 ++ k :: l2) = true ->
  ~ In k l1 /\ Forall (fun k' => keyBefore k' k = true) l1.
Proof.
  unfold wfKeys. intros H. apply andb_prop in H as [Hd Ho].
  split; [|eapply ordered_before; eassumption].
  apply distinct_NoDup, NoDup_remove_2 in Hd.
  intros Hin. apply Hd, in_or_app. auto.
Qed.

Lemma wfKeys_nonIndex (l : list string) :
  NoDup l -> Forall (fun k => arrayIndex k = None) l -> wfKeys l = true.
Proof.
  intros Hd Hn. unfold wfKeys.
  rewrite (NoDup_distinct _ Hd), (nonIndex_ordered _ Hn). reflexivity.
Qed.

Section Facts.
Context {V : Type}.
Implicit Types (o : obj V) (k : string) (v : V).

Lemma get_None_iff k o : get k o = None <-> ~ In k (keys o).
Proof.
  induction o as [|[k' v'] r IH]; simpl.
  - split; auto.
  - destruct (String.eqb_spec k k') as [->|Hne].
    + split; [discriminate | intros H; exfalso; apply H; auto].
    + rewrite IH. split.
      * intros H [E|I]; [congruence | auto].
      * intros H I. apply H. auto.
Qed.

Lemma get_Some_In k o v : get k o = Some v -> In (k, v) o.
Proof.
  induction o as [|[k' v'] r IH]; simpl; [discriminate|].
  destruct (String.eqb_spec k k') as [->|Hne].
  - intros [= ->]. auto.
  - auto.
Qed.

Lemma has_false_iff k o : has k o = false <-> ~ In k (keys o).
Proof.
  unfold has. rewrite <- get_None_iff.
  destruct (get k o); split; congruence.
Qed.

Lemma keys_replace k v o : keys (replace k v o) = keys o.
Proof.
  induction o as [|[k' v'] r IH]; simpl; [reflexivity|].
  destruct (String.eqb k k'); simpl; [reflexivity | now rewrite IH].
Qed.

Lemma get_replace_eq k v o :
  In k (keys o) -> get k (replace k v o) = Some v.
Proof.
  induction o as [|[k' v'] r IH]; simpl; [contradiction|].
  intros H. destruct (String.eqb_spec k k') as [->|Hne]; simpl.
  - now rewrite String.eqb_refl.
  - destruct (String.eqb_spec k k'); [contradiction|].
    apply IH. destruct H; congruence.
Qed.

Lemma get_replace_neq k k' v o :
  k' <> k -> get k' (replace k v o) = get k' o.
Proof.
  intros Hne. induction o as [|[k0 v0] r IH]; simpl; [reflexivity|].
  destruct (String.eqb_spec k k0) as [->|H0]; simpl.
  - destruct (String.eqb_spec k' k0); [contradiction | reflexivity].
  - destruct (String.eqb k' k0); [reflexivity | exact IH].
Qed.

Lemma in_keys_insertIndex n k v o x :
  In x (keys (insertIndex n k v o)) <-> x = k \/ In x (keys o).
Proof.
  induction o as [|[k' v'] r IH]; simpl.
  - intuition.
  - destruct (arrayIndex k') as [m|]; [destruct (m <? n)%N|]; simpl;
      rewrite ?IH; intuition.
Qed.

Lemma NoDup_insertIndex n k v o :
  ~ In k (keys o) -> NoDup (keys o) -> NoDup (keys (insertIndex n k v o)).
Proof.
  induction o as [|[k' v'] r IH]; simpl; intros Hk Hd.
  - constructor; [auto | constructor].
  - inversion Hd as [|? ? Hk' Hr]; subst.
    destruct (arrayIndex k') as [m|]; [destruct (m <? n)%N|]; simpl.
    + constructor.
      * rewrite in_keys_insertIndex. intros [E|I]; [subst; auto | auto].
      * apply IH; auto.
    + constructor; [simpl; intuition | constructor; auto].
    + constructor; [simpl; intuition | constructor; auto].
Qed.

Lemma get_insertIndex_eq n k v o :
  ~ In k (keys o) -> get k (insertIndex n k v o) = Some v.
Proof.
  induction o as [|[k' v'] r IH]; simpl; intros Hk.
  - now rewrite String.eqb_refl.
  - destruct (arrayIndex k') as [m|]; [destruct (m <? n)%N|]; simpl;
      rewrite ?String.eqb_refl; try reflexivity.
    destruct (String.eqb_spec k k') as [->|_]; [exfalso; auto | auto].
Qed.

Lemma get_insertIndex_neq n k k' v o :
  k' <> k -> get k' (insertIndex n k v o) = get k' o.
Proof.
  intros Hne. induction o as [|[k0 v0] r IH]; simpl.
  - destruct (String.eqb_spec k' k); [contradiction | reflexivity].
  - destruct (arrayIndex k0) as [m|]; [destruct (m <? n)%N|]; simpl.
    + destruct (String.eqb k' k0); [reflexivity | exact IH].
    + destruct (String.eqb_spec k' k); [contradiction | reflexivity].
    + destruct (String.eqb_spec k' k); [contradiction | reflexivity].
Qed.

Lemma get_app_fresh k v o :
  ~ In k (keys o) -> get k (o ++ [(k, v)]) = Some v.
Proof.
  induction o as [|[k' v'] r IH]; simpl; intros Hk.
  - now rewrite String.eqb_refl.
  - destruct (String.eqb_spec k k') as [->|_]; [exfalso; auto | auto].
Qed.

Lemma get_app_other k k' v o :
  k' <> k -> get k' (o ++ [(k, v)]) = get k' o.
Proof.
  intros Hne. induction o as [|[k0 v0] r IH]; simpl.
  - destruct (String.eqb_spec k' k); [contradiction | reflexivity].
  - destruct (String.eqb k' k0); [reflexivity | exact IH].
Qed.

(** Reading back the property just written. *)
Lemma get_set_eq k v o : get k (set k v o) = Some v.
Proof.
  unfold set. destruct (has k o) eqn:H.
  - apply get_replace_eq.
    destruct (in_dec string_dec k (keys o)) as [I|N]; [exact I|].
    apply has_false_iff in N. congruence.
  - apply has_false_iff in H.
    destruct (arrayIndex k);
      [now apply get_insertIndex_eq | now apply get_app_fresh].
Qed.

(** Writing one property leaves the others as they are. *)
Lemma get_set_neq k k' v o : k' <> k -> get k' (set k v o) = get k' o.
Proof.
  intros Hne. unfold set. destruct (has k o).
  - now apply get_replace_neq.
  - destruct (arrayIndex k);
      [now apply get_insertIndex_neq | now apply get_app_other].
Qed.

Lemma NoDup_set k v o : NoDup (keys o) -> NoDup (keys (set k v o)).
Proof.
  intros Hd. unfold set. destruct (has k o) eqn:H.
  - now rewrite keys_replace.
  - apply has_false_iff in H. destruct (arrayIndex k).
    + now apply NoDup_insertIndex.
    + unfold keys. rewrite map_app. simpl.
      apply NoDup_app; repeat split; auto.
      * constructor; [simpl; tauto | constructor].
      * intros x Hx [E|[]]. subst. auto.
Qed.

(** A new key that every listed key precedes goes to the end. *)
Lemma set_append k v o :
  ~ In k (keys o) ->
  Forall (fun k' => keyBefore k' k = true) (keys o) ->
  set k v o = o ++ [(k, v)].
Proof.
  intros Hk Hb. apply has_false_iff in Hk.
  unfold set. rewrite Hk. clear Hk.
  destruct (arrayIndex k) as [n|] eqn:E; [|reflexivity].
  induction o as [|[k' v'] r IH]; simpl; [reflexivity|].
  inversion Hb as [|? ? Hk' Hr]; subst.
  unfold keyBefore in Hk'. simpl in Hk'. rewrite E in Hk'.
  destruct (arrayIndex k') as [m|]; [|discriminate].
  rewrite Hk'. now rewrite IH.
Qed.

End Facts.

Section Folds.
Context {X V : Type}.
Variables (g : X -> string) (f : X -> V).

(** A reduce that writes the keys of a well-formed key list in their
    order builds the object entry by entry. *)
Lemma fold_set_app (l : list X) :
  forall acc : obj V,
    wfKeys (keys acc ++ map g l) = true ->
    fold_left (fun a x => set (g x) (f x) a) l acc
    = acc ++ map (fun x => (g x, f x)) l.
Proof.
  induction l as [|x r IH]; simpl; intros acc Hwf.
  - now rewrite app_nil_r.
  - destruct (wfKeys_app_inv _ _ _ Hwf) as [Hk Hb].
    rewrite (set_append _ _ _ Hk Hb).
    rewrite IH.
    + now rewrite <- app_assoc.
    + unfold keys. rewrite map_app. simpl.
      rewrite <- app_assoc. exact Hwf.
Qed.

Lemma fold_set_map (l : list X) :
  wfKeys (map g l) = true ->
  fold_left (fun a x => set (g x) (f x) a) l []
  = map (fun x => (g x, f x)) l.
Proof. intros H. now rewrite fold_set_app. Qed.

Lemma NoDup_fold_set (l : list X) :
  forall acc : obj V,
    NoDup (keys acc) ->
    NoDup (keys (fold_left (fun a x => set (g x) (f x) a) l acc)).
Proof.
  induction l as [|x r IH]; simpl; intros acc Hd; [exact Hd|].
  apply IH, NoDup_set, Hd.
Qed.

End Folds.

Section Spread.
Context {V : Type}.
Implicit Types (a b : obj V).

Lemma spread_append a b :
  wfKeys (keys a ++ keys b) = true -> spread a b = a ++ b.
Proof.
  intros H. unfold spread.
  rewrite (fold_set_app fst snd b a H).
  f_equal. rewrite <- (map_id b) at 2.
  apply map_ext. now intros [k v].
Qed.

(** [{ ...a, ...b }[k]]: the property of [b] when it has one, else
    that of [a]. *)
Lemma get_spread k b :
  NoDup (keys b) ->
  forall a,
    get k (spread a b)
    = match get k b with Some v => Some v | None => get k a end.
Proof.
  unfold spread.
  induction b as [|[k1 v1] r IH]; simpl; intros Hd a; [reflexivity|].
  inversion Hd as [|? ? Hk1 Hr]; subst.
  rewrite (IH Hr).
  destruct (String.eqb_spec k k1) as [->|Hne].
  - apply get_None_iff in Hk1. rewrite Hk1. apply get_set_eq.
  - now rewrite get_set_neq.
Qed.

End Spread.

End JsObjectFacts.

(* ================================================================== *)
(** ** Facts on strings and lists *)
(* ================================================================== *)

Module JsStringFacts.
Import JsString JsObject.

Lemma append_nil_r (s : string) : s ++ "" = s.
Proof. induction s; simpl; [reflexivity | now rewrite IHs]. Qed.

Lemma append_assoc (a b c : string) : (a ++ b) ++ c = a ++ b ++ c.
Proof. induction a; simpl; [reflexivity | now rewrite IHa]. Qed.


Lemma append_cancel_l (a b c : string) : a ++ b = a ++ c -> b = c.
Proof. induction a; simpl; [auto | intros [= H]; auto]. Qed.


Lemma append_eq_nil (a b : string) : a ++ b = "" -> a = "".
Proof. destruct a; simpl; [reflexivity | discriminate]. Qed.

(** A key that starts with two hyphens is no array index. *)
Lemma arrayIndex_dashed (x : string) : arrayIndex ("--" ++ x) = None.
Proof. reflexivity. Qed.

Lemma substring_length_le (s : string) :
  forall n m, String.length (String.substring n m s) <= m.
Proof.
  induction s as [|c r IH]; intros [|n] [|m]; simpl; try lia.
  - specialize (IH 0 m). lia.
  - apply (IH n 0).
  - apply (IH n (S m)).
Qed.

(** [value.substring(0, 5)] has at most five characters. *)
Lemma jsSubstring_0_5_length (s : string) :
  String.length (jsSubstring 0 5 s) <= 5.
Proof.
  unfold jsSubstring.
  set (a := clampIndex s 0). set (b := clampIndex s 5).
  assert (Ha : a = 0) by (unfold a, clampIndex; lia).
  assert (Hb : b <= 5) by (unfold b, clampIndex; lia).
  pose proof (substring_length_le s (Nat.min a b) (Nat.max a b - Nat.min a b)).
  lia.
Qed.

Lemma splitRest_cons (s : string) : exists x r, splitRest s = x :: r.
Proof.
  destruct s as [|c s]; simpl; [eauto|].
  destruct (isBoundary c); [eauto|].
  destruct (splitRest s); simpl; eauto.
Qed.

Lemma join_consHead (sep : string) (c : ascii) (x : string) (r : list string) :
  join sep (consHead c (x :: r)) = String c (join sep (x :: r)).
Proof. destruct r; reflexivity. Qed.

Lemma join_splitRest (s : string) :
  join "-" (splitRest s) = Theme.hyphenateRest s.
Proof.
  induction s as [|c s IH]; simpl; [reflexivity|].
  destruct (splitRest_cons s) as (x & r & E). rewrite E in *.
  destruct (isBoundary c).
  - change (join "-" ("" :: consHead c (x :: r)))
      with ("" ++ "-" ++ join "-" (consHead c (x :: r))).
    rewrite join_consHead, IH. reflexivity.
  - rewrite join_consHead, IH. reflexivity.
Qed.

(** The split and the join of the name deriver put a hyphen in front of
    every uppercase letter, underscore and space behind the first
    character, and keep every character. *)
Lemma jsNameToCssName_hyphenate (name : string) :
  Utils.jsNameToCssName name = toLowerCase (Theme.hyphenate name).
Proof.
  unfold Utils.jsNameToCssName. f_equal.
  destruct name as [|c s]; simpl; [reflexivity|].
  destruct (splitRest_cons s) as (x & r & E).
  rewrite E, join_consHead, <- E, join_splitRest. reflexivity.
Qed.

End JsStringFacts.

Module ListFacts.
Local Open Scope list_scope.

Lemma flat_map_map {A B C : Type} (f : B -> list C) (g : A -> B) (l : list A) :
  flat_map f (map g l) = flat_map (fun x => f (g x)) l.
Proof. induction l; simpl; [reflexivity | now rewrite IHl]. Qed.

Lemma map_flat_map {A B C : Type} (f : B -> C) (g : A -> list B) (l : list A) :
  map f (flat_map g l) = flat_map (fun x => map f (g x)) l.
Proof. induction l; simpl; [reflexivity | now rewrite map_app, IHl]. Qed.

Lemma flat_map_ext_in {A B : Type} (f g : A -> list B) (l : list A) :
  (forall x, In x l -> f x = g x) -> flat_map f l = flat_map g l.
Proof.
  induction l as [|a r IH]; simpl; intros H; [reflexivity|].
  rewrite (H a), IH; auto.
Qed.

Lemma fold_left_map {A B C : Type} (f : A -> B -> A) (g : C -> B)
  (l : list C) :
  forall a, fold_left f (map g l) a = fold_left (fun a x => f a (g x)) l a.
Proof. induction l; simpl; intros; [reflexivity | apply IHl]. Qed.

Lemma NoDup_map_in {A B : Type} (f : A -> B) (l : list A) :
  (forall x y, In x l -> In y l -> f x = f y -> x = y) ->
  NoDup l -> NoDup (map f l).
Proof.
  intros Hinj Hd. induction Hd as [|a r Ha Hr IH]; simpl; constructor.
  - rewrite in_map_iff. intros [y [E Hy]].
    assert (y = a) by (apply Hinj; simpl; auto). subst. contradiction.
  - apply IH. intros x y Hx Hy. apply Hinj; simpl; auto.
Qed.

Lemma NoDup_app_l {A : Type} (l1 l2 : list A) : NoDup (l1 ++ l2) -> NoDup l1.
Proof.
  induction l1 as [|a r IH]; simpl; intros H; [constructor|].
  inversion H as [|? ? Ha Hr]; subst. constructor; [|auto].
  intros Hin. apply Ha, in_or_app. auto.
Qed.

Lemma NoDup_app_disjoint {A : Type} (l1 l2 : list A) :
  NoDup (l1 ++ l2) -> forall a, In a l1 -> ~ In a l2.
Proof.
  induction l1 as [|x r IH]; simpl; intros H a Ha H2; [contradiction|].
  destruct Ha as [E|Hin].
  - subst. inversion H as [|? ? Hx _]; subst. apply Hx, in_or_app. auto.
  - inversion H as [|? ? _ Hr]; subst. exact (IH Hr a Hin H2).
Qed.

End ListFacts.

(* ================================================================== *)
(** ** The tree transformations *)
(* ================================================================== *)

Module UtilsFacts.
Import JsString JsObject Utils Index Theme.
Import JsObjectFacts JsStringFacts ListFacts.
Local Open Scope list_scope.

(** Induction on a tree with the hypothesis for every listed value. *)
Lemma Tree_forall_ind (P : Tree -> Prop) :
  (forall s, P (Leaf s)) ->
  (forall props, Forall (fun kv => P (snd kv)) props -> P (Node props)) ->
  forall t, P t.
Proof.
  intros HL HN. fix IH 1. intros [s|props]; [apply HL|].
  apply HN. induction props as [|[k t] r IHr]; constructor.
  - apply IH.
  - exact IHr.
Qed.

Lemma wfTree_Node (props : list (string * Tree)) :
  wfTree (Node props) = true ->
  wfKeys (map fst props) = true
  /\ Forall (fun kv => wfTree (snd kv) = true) props.
Proof.
  simpl. intros H. apply andb_prop in H as [Hk Hc]. split; [exact Hk|].
  apply Forall_forall. now apply forallb_forall.
Qed.

(** The source equations of the nested reduces. *)
Lemma variableOf_Node suffix sub prefix key :
  variableOf suffix (Node sub) prefix key
  = VarTree (makeObjectVariables sub (Some (prefixStr prefix ++ key)%string) suffix)
      ("--" ++ cssName prefix suffix key)%string
      ("var(--" ++ cssName prefix suffix key ++ ")")%string.
Proof. reflexivity. Qed.

Lemma colorOf_VarTree val v r : colorOf (VarTree val v r) = Node (varColorMap val).
Proof. reflexivity. Qed.

Lemma referenceOf_VarTree val v r :
  referenceOf (VarTree val v r) = Node (keyVarMap val).
Proof. reflexivity. Qed.

Lemma flatOf_Node key sub : flatOf key (Node sub) = treeWalk sub.
Proof. reflexivity. Qed.

Lemma var_variableOf suffix t prefix key :
  var (variableOf suffix t prefix key) = ("--" ++ cssName prefix suffix key)%string.
Proof. destruct t; reflexivity. Qed.

(** On an object, [makeObjectVariables] keeps the keys and their
    order. *)
Lemma makeObjectVariables_map (o : obj Tree) prefix suffix :
  wfKeys (map fst o) = true ->
  makeObjectVariables o prefix suffix
  = map (fun kv => (fst kv, variableOf suffix (snd kv) prefix (fst kv))) o.
Proof.
  intros H. unfold makeObjectVariables.
  exact (fold_set_map fst (fun kv => variableOf suffix (snd kv) prefix (fst kv)) o H).
Qed.

Lemma keys_makeObjectVariables (o : obj Tree) prefix suffix :
  wfKeys (map fst o) = true ->
  keys (makeObjectVariables o prefix suffix) = map fst o.
Proof.
  intros H. rewrite makeObjectVariables_map by exact H.
  unfold keys. rewrite map_map. reflexivity.
Qed.

Lemma keyVarMap_map (o : obj VarNode) :
  wfKeys (keys o) = true ->
  keyVarMap o = map (fun kv => (fst kv, referenceOf (snd kv))) o.
Proof.
  intros H. unfold keyVarMap.
  exact (fold_set_map fst (fun kv => referenceOf (snd kv)) o H).
Qed.

Lemma keyVarMap_makeObjectVariables (o : obj Tree) prefix suffix :
  wfKeys (map fst o) = true ->
  keyVarMap (makeObjectVariables o prefix suffix)
  = map (fun kv =>
           (fst kv, referenceOf (variableOf suffix (snd kv) prefix (fst kv)))) o.
Proof.
  intros H. rewrite keyVarMap_map.
  - rewrite makeObjectVariables_map by exact H. rewrite map_map. reflexivity.
  - rewrite keys_makeObjectVariables; exact H.
Qed.

Lemma shapeOf_reference_variable (t : Tree) :
  wfTree t = true ->
  forall suffix prefix key,
    shapeOf (referenceOf (variableOf suffix t prefix key)) = shapeOf t.
Proof.
  induction t as [s|props IH] using Tree_forall_ind; intros Hwf suffix prefix key.
  - reflexivity.
  - apply wfTree_Node in Hwf as [Hk Hc].
    rewrite variableOf_Node, referenceOf_VarTree.
    rewrite keyVarMap_makeObjectVariables by exact Hk.
    simpl. f_equal. rewrite map_map. simpl.
    apply map_ext_in. intros kv Hin.
    rewrite Forall_forall in IH, Hc.
    rewrite (IH kv Hin (Hc kv Hin)). reflexivity.
Qed.

End UtilsFacts.

(* ================================================================== *)
(** ** Generated property names *)
(* ================================================================== *)

Module NamingFacts.
Import JsString JsObject Utils Index Theme.
Import JsObjectFacts JsStringFacts ListFacts UtilsFacts.
Local Open Scope list_scope.




Lemma leafVars_VarTree val v r :
  leafVars (VarTree val v r) = flat_map (fun kv => leafVars (snd kv)) val.
Proof. reflexivity. Qed.






(** The declared names are the property names of the leaves. *)
Lemma declarationsOf_names (t : Tree) :
  wfTree t = true ->
  forall suffix prefix key,
    map fst (declarationsOf suffix t prefix key)
    = leafVars (variableOf suffix t prefix key).
Proof.
  induction t as [s|props IH] using Tree_forall_ind;
    intros Hwf suffix prefix key; [reflexivity|].
  apply wfTree_Node in Hwf as [Hk Hc].
  rewrite variableOf_Node, leafVars_VarTree.
  rewrite makeObjectVariables_map by exact Hk.
  rewrite flat_map_map. simpl. rewrite map_flat_map.
  apply flat_map_ext_in. intros kv Hin.
  rewrite Forall_forall in IH, Hc. apply IH; auto.
Qed.

Lemma declarations_names (o : obj Tree) prefix suffix :
  wfObj o = true ->
  map fst (declarations o prefix suffix)
  = leafVarsOf (makeObjectVariables o prefix suffix).
Proof.
  intros Hwf. apply wfTree_Node in Hwf as [Hk Hc].
  unfold declarations, leafVarsOf.
  rewrite makeObjectVariables_map by exact Hk.
  rewrite flat_map_map, map_flat_map. simpl.
  apply flat_map_ext_in. intros kv Hin.
  rewrite Forall_forall in Hc. apply declarationsOf_names. exact (Hc kv Hin).
Qed.

End NamingFacts.

(* ================================================================== *)
(** ** The entry point, the resolver and the merger *)
(* ================================================================== *)

Module IndexFacts.
Import JsString JsObject Utils Index Theme.
Import JsObjectFacts JsStringFacts ListFacts UtilsFacts.
Local Open Scope list_scope.

(** The recognition test of the resolver compares at most five
    characters with a literal of six: it never succeeds. *)
Lemma resolveFactory_returns_value (defaultVars : obj string)
  (window : option Window) (value : string) :
  resolveFactory defaultVars window value = Some value.
Proof.
  unfold resolveFactory.
  destruct (String.eqb_spec (jsSubstring 0 5 value) "var(--") as [E|_];
    [|reflexivity].
  exfalso. pose proof (jsSubstring_0_5_length value) as H.
  rewrite E in H. simpl in H. lia.
Qed.

Lemma NoDup_keys_keyVarMap (o : obj VarNode) : NoDup (keys (keyVarMap o)).
Proof. unfold keyVarMap. apply NoDup_fold_set. constructor. Qed.

Lemma mergeReduce_ext (f g : string -> Completion JSValue) (ks : list string) :
  (forall key, f key = g key) -> mergeReduce f ks = mergeReduce g ks.
Proof.
  intros H. unfold mergeReduce. f_equal.
  generalize (Returned (@nil (string * JSValue))).
  induction ks as [|k r IH]; simpl; intros c; [reflexivity|].
  rewrite (H k). apply IH.
Qed.

Lemma charProps_not_object (key s : string) :
  forall i x, get key (charProps i s) = Some x -> instanceofObject x = false.
Proof.
  induction s as [|c r IH]; intros i x; simpl; [discriminate|].
  destruct (String.eqb key (decimal i)); [now intros [= <-] | apply IH].
Qed.

(** A primitive has no own object-valued property. *)
Lemma getProp_primitive (v nv : JSValue) (key : string) :
  instanceofObject v = false ->
  getProp v key = Returned nv -> instanceofObject nv = false.
Proof.
  destruct v as [| |b|n|s|props]; simpl; intros Hv E; try discriminate.
  destruct (String.eqb key "length"); [now injection E as <-|].
  destruct (get key (charProps 0 s)) as [x|] eqn:G; [|discriminate].
  injection E as <-. exact (charProps_not_object _ _ _ _ G).
Qed.

(** The equation of the source: every step reads [newThemeObject[key]]
    and either recurses on it or falls back to [oldThemeObject[key]]. *)
Lemma mergeThemes_eq (oldThemeObject newThemeObject : JSValue) :
  mergeThemes oldThemeObject newThemeObject
  = mergeReduce
      (fun key =>
         bind (getProp newThemeObject key) (fun nv =>
         if instanceofObject nv
         then bind (getProp oldThemeObject key) (fun ov => mergeThemes ov nv)
         else orElse nv (getProp oldThemeObject key)))
      (mergedKeys oldThemeObject newThemeObject).
Proof.
  destruct (instanceofObject newThemeObject) eqn:Hobj.
  - destruct newThemeObject as [| |b|n|s|props]; try discriminate.
    clear Hobj. simpl. apply mergeReduce_ext. intros key.
    induction props as [|[k v] r IH]; simpl.
    + destruct (inheritedByObject key); reflexivity.
    + destruct (String.eqb key k); [destruct v; reflexivity | exact IH].
  - assert (E : mergeThemes oldThemeObject newThemeObject
                = mergeReduce
                    (fun key =>
                       bind (getProp newThemeObject key)
                            (fun nv => orElse nv (getProp oldThemeObject key)))
                    (mergedKeys oldThemeObject newThemeObject))
      by (destruct newThemeObject; try discriminate; reflexivity).
    rewrite E. apply mergeReduce_ext. intros key.
    destruct (getProp newThemeObject key) as [nv| |] eqn:G; try reflexivity.
    simpl. now rewrite (getProp_primitive _ _ _ Hobj G).
Qed.

End IndexFacts.

(* ================================================================== *)
(** ** The flattened value map *)
(* ================================================================== *)

Module StylesheetFacts.
Import JsString JsObject Utils Index Theme.
Import JsObjectFacts JsStringFacts ListFacts UtilsFacts.
Local Open Scope list_scope.

Lemma fold_left_ext_in {A B : Type} (f g : A -> B -> A) (l : list B) :
  (forall a x, In x l -> f a x = g a x) ->
  forall a, fold_left f l a = fold_left g l a.
Proof.
  induction l as [|x r IH]; simpl; intros H a; [reflexivity|].
  rewrite (H a x) by auto. apply IH. intros. apply H. auto.
Qed.

(** Spreading parts that never repeat a key, none of them an array
    index, lists the parts one after the other. *)
Lemma fold_spread_flat_map {X V : Type} (h : X -> obj V) (l : list X) :
  forall acc : obj V,
    NoDup (keys (acc ++ flat_map h l)) ->
    Forall nonIndex (keys (acc ++ flat_map h l)) ->
    fold_left (fun a x => spread a (h x)) l acc = acc ++ flat_map h l.
Proof.
  induction l as [|x r IH]; simpl; intros acc Hd Hn.
  - now rewrite app_nil_r.
  - rewrite app_assoc in Hd, Hn.
    rewrite spread_append.
    + rewrite IH by assumption. now rewrite <- app_assoc.
    + unfold keys in *. rewrite map_app in Hd, Hn. rewrite <- map_app.
      apply wfKeys_nonIndex.
      * eapply NoDup_app_l; eassumption.
      * apply Forall_app in Hn. tauto.
Qed.

Lemma declarationsOf_dashed suffix (t : Tree) :
  forall prefix key,
    Forall nonIndex (map fst (declarationsOf suffix t prefix key)).
Proof.
  induction t as [s|props IH] using Tree_forall_ind; intros prefix key; simpl.
  - constructor; [apply arrayIndex_dashed | constructor].
  - induction props as [|kv r IHr]; simpl; [constructor|].
    inversion IH as [|? ? Hkv Hr]; subst.
    rewrite map_app. apply Forall_app. split; [apply Hkv | apply IHr, Hr].
Qed.

Lemma declarations_dashed (o : obj Tree) prefix suffix :
  Forall nonIndex (map fst (declarations o prefix suffix)).
Proof.
  unfold declarations. induction o as [|kv r IH]; simpl; [constructor|].
  rewrite map_app. apply Forall_app. split; [apply declarationsOf_dashed | exact IH].
Qed.

Lemma NoDup_declarations_part (o : obj Tree) prefix suffix kv :
  NoDup (map fst (declarations o prefix suffix)) -> In kv o ->
  NoDup (map fst (declarationsOf suffix (snd kv) prefix (fst kv))).
Proof.
  unfold declarations.
  induction o as [|x r IH]; simpl; intros Hd Hin; [contradiction|].
  rewrite map_app in Hd. destruct Hin as [->|Hin].
  - eapply NoDup_app_l; eassumption.
  - apply IH; [|exact Hin]. eapply NoDup_app_remove_l; eassumption.
Qed.

Lemma varColorMap_makeObjectVariables (o : obj Tree) prefix suffix :
  wfKeys (map fst o) = true ->
  distinct (map (fun kv => cssName prefix suffix (fst kv)) o) = true ->
  varColorMap (makeObjectVariables o prefix suffix)
  = map (fun kv =>
           (("--" ++ cssName prefix suffix (fst kv))%string,
            colorOf (variableOf suffix (snd kv) prefix (fst kv)))) o.
Proof.
  intros Hk Hd. rewrite makeObjectVariables_map by exact Hk.
  unfold varColorMap.
  rewrite (fold_set_map (fun kv : string * VarNode => var (snd kv))
                        (fun kv => colorOf (snd kv))).
  - rewrite map_map. apply map_ext. intros kv. simpl.
    now rewrite var_variableOf.
  - rewrite map_map. simpl.
    apply wfKeys_nonIndex.
    + rewrite (map_ext _ (fun kv => ("--" ++ cssName prefix suffix (fst kv))%string))
        by (intros; apply var_variableOf).
      rewrite <- (map_map (fun kv => cssName prefix suffix (fst kv))
                          (fun n => ("--" ++ n)%string)).
      apply NoDup_map_in; [|now apply distinct_NoDup].
      intros x y _ _ E. exact (append_cancel_l _ _ _ E).
    + apply Forall_forall. intros k Hin.
      apply in_map_iff in Hin as [kv [<- _]].
      rewrite var_variableOf. apply arrayIndex_dashed.
Qed.

Lemma treeWalk_object (o : obj Tree) prefix suffix :
  Forall (fun kv => flatOK (snd kv)) o ->
  wfObj o = true ->
  distinct (map (fun kv => cssName prefix suffix (fst kv)) o) = true ->
  forallb (fun kv => siblingsDistinctOf suffix (snd kv) prefix (fst kv)) o = true ->
  NoDup (map fst (declarations o prefix suffix)) ->
  treeWalk (varColorMap (makeObjectVariables o prefix suffix))
  = declarations o prefix suffix.
Proof.
  intros IH Hwf Hd Hs Hn. apply wfTree_Node in Hwf as [Hk Hc].
  rewrite varColorMap_makeObjectVariables by assumption.
  unfold treeWalk. rewrite fold_left_map. simpl.
  rewrite (fold_left_ext_in _
             (fun a kv => spread a (declarationsOf suffix (snd kv) prefix (fst kv)))).
  - rewrite fold_spread_flat_map; [reflexivity | exact Hn |].
    apply declarations_dashed.
  - intros a kv Hin. f_equal.
    rewrite Forall_forall in IH, Hc. rewrite forallb_forall in Hs.
    apply (IH kv Hin); auto.
    eapply NoDup_declarations_part; eassumption.
Qed.

Lemma flatOK_all (t : Tree) : flatOK t.
Proof.
  induction t as [s|props IH] using Tree_forall_ind;
    intros suffix prefix key Hwf Hs Hn.
  - reflexivity.
  - rewrite variableOf_Node, colorOf_VarTree, flatOf_Node.
    simpl in Hs. apply andb_prop in Hs as [Hd Hs].
    apply (treeWalk_object props (Some (prefixStr prefix ++ key)%string) suffix);
      assumption.
Qed.

(** Without name collisions, the flattened value map lists the
    declarations of the leaves in depth-first key order. *)
Lemma treeWalk_declarations (o : obj Tree) prefix suffix :
  wfObj o = true -> namesDistinct o prefix suffix = true ->
  treeWalk (varColorMap (makeObjectVariables o prefix suffix))
  = declarations o prefix suffix.
Proof.
  intros Hwf Hn. unfold namesDistinct in Hn.
  apply andb_prop in Hn as [Hn Hl]. apply andb_prop in Hn as [Hd Hs].
  apply treeWalk_object; auto.
  - apply Forall_forall. intros kv _. apply flatOK_all.
  - now apply distinct_NoDup.
Qed.

End StylesheetFacts.

(* ================================================================== *)
(** ** Keys that keep the generated names apart *)
(* ================================================================== *)

Module SeparableFacts.
Import JsString JsObject Utils Index Theme.
Import JsObjectFacts JsStringFacts ListFacts UtilsFacts NamingFacts.
Local Open Scope list_scope.


















End SeparableFacts.

(* ================================================================== *)
(** ** What an object built by a reduce holds *)
(* ================================================================== *)

Module MembershipFacts.
Import JsObject JsObjectFacts.
Local Open Scope list_scope.

Section Entries.
Context {V : Type}.
Implicit Types (o : obj V) (k : string) (v : V).

Lemma in_replace k v o e :
  In e (replace k v o) -> e = (k, v) \/ In e o.
Proof.
  induction o as [|[k' v'] r IH]; simpl; [tauto|].
  destruct (String.eqb_spec k k') as [->|_]; simpl.
  - intros [<-|H]; auto.
  - intros [<-|H]; auto. destruct (IH H); auto.
Qed.

Lemma in_insertIndex n k v o e :
  In e (insertIndex n k v o) -> e = (k, v) \/ In e o.
Proof.
  induction o as [|[k' v'] r IH]; simpl.
  - intros [<-|[]]. auto.
  - destruct (arrayIndex k') as [m|]; [destruct (m <? n)%N|]; simpl.
    + intros [<-|H]; auto. destruct (IH H); auto.
    + intros [<-|H]; auto.
    + intros [<-|H]; auto.
Qed.

(** An entry of [{ ...o, [k]: v }] is the new one or one of [o]. *)
Lemma in_set k v o e : In e (set k v o) -> e = (k, v) \/ In e o.
Proof.
  unfold set. destruct (has k o).
  - apply in_replace.
  - destruct (arrayIndex k); [apply in_insertIndex|].
    intros H. apply in_app_or in H as [H|[<-|[]]]; auto.
Qed.

Lemma in_keys_set k v o x :
  In x (keys (set k v o)) <-> x = k \/ In x (keys o).
Proof.
  unfold set. destruct (has k o) eqn:H.
  - rewrite keys_replace. split; [auto|]. intros [->|I]; [|exact I].
    destruct (in_dec string_dec k (keys o)) as [I|N]; [exact I|].
    apply has_false_iff in N. congruence.
  - destruct (arrayIndex k).
    + apply in_keys_insertIndex.
    + unfold keys. rewrite map_app, in_app_iff. simpl. intuition.
Qed.

Lemma replace_same k v o : get k o = Some v -> replace k v o = o.
Proof.
  induction o as [|[k' v'] r IH]; simpl; [reflexivity|].
  destruct (String.eqb_spec k k') as [->|_].
  - now intros [= ->].
  - intros H. now rewrite IH.
Qed.

(** Writing a property with the value it has changes nothing. *)
Lemma set_same k v o : get k o = Some v -> set k v o = o.
Proof.
  intros H. unfold set, has. rewrite H. now apply replace_same.
Qed.

Lemma In_get k v o : NoDup (keys o) -> In (k, v) o -> get k o = Some v.
Proof.
  induction o as [|[k' v'] r IH]; simpl; intros Hd Hin; [contradiction|].
  inversion Hd as [|? ? Hk Hr]; subst.
  destruct Hin as [[= -> ->]|Hin].
  - now rewrite String.eqb_refl.
  - destruct (String.eqb_spec k k') as [->|_]; [|auto].
    exfalso. apply Hk. apply (in_map fst) in Hin. exact Hin.
Qed.

Lemma get_map_keys (F : string -> V) (l : list string) (k : string) :
  get k (map (fun x => (x, F x)) l) = if in_dec string_dec k l then Some (F k) else None.
Proof.
  induction l as [|x r IH]; simpl; [reflexivity|].
  destruct (String.eqb_spec k x) as [->|Hne].
  - destruct (string_dec x x); [reflexivity | contradiction].
  - rewrite IH. destruct (string_dec x k) as [E|N]; [congruence|].
    destruct (in_dec string_dec k r); reflexivity.
Qed.

End Entries.

Section Reduces.
Context {X V : Type}.
Variables (g : X -> string) (f : X -> V).

Lemma in_fold_set (l : list X) :
  forall (acc : obj V) e,
    In e (fold_left (fun a x => set (g x) (f x) a) l acc) ->
    In e acc \/ exists x, In x l /\ e = (g x, f x).
Proof.
  induction l as [|x r IH]; simpl; intros acc e H; [auto|].
  destruct (IH _ _ H) as [H1|[y [Hy E]]].
  - destruct (in_set _ _ _ _ H1) as [E|H2]; [right; exists x|]; auto.
  - right. exists y. auto.
Qed.

Lemma in_keys_fold_set (l : list X) :
  forall (acc : obj V) k,
    In k (keys (fold_left (fun a x => set (g x) (f x) a) l acc))
    <-> In k (keys acc) \/ In k (map g l).
Proof.
  induction l as [|x r IH]; simpl; intros acc k; [tauto|].
  rewrite IH, in_keys_set. intuition.
Qed.

End Reduces.

Section Spreads.
Context {V : Type}.
Implicit Types (a b : obj V).

Lemma in_spread a b e : In e (spread a b) -> In e a \/ In e b.
Proof.
  unfold spread. intros H.
  destruct (in_fold_set fst snd b a e H) as [H1|[[k v] [Hx ->]]]; auto.
Qed.

Lemma in_keys_spread a b k :
  In k (keys (spread a b)) <-> In k (keys a) \/ In k (keys b).
Proof. unfold spread. apply (in_keys_fold_set fst snd). Qed.

Lemma in_fold_spread {X : Type} (h : X -> obj V) (l : list X) :
  forall acc e,
    In e (fold_left (fun a x => spread a (h x)) l acc) ->
    In e acc \/ exists x, In x l /\ In e (h x).
Proof.
  induction l as [|x r IH]; simpl; intros acc e H; [auto|].
  destruct (IH _ _ H) as [H1|[y [Hy E]]].
  - destruct (in_spread _ _ _ H1) as [H2|H2]; [auto | right; exists x; auto].
  - right. exists y. auto.
Qed.

(** Spreading over an object properties it already has, with the
    values it has, gives the object back. *)
Lemma spread_same b :
  forall a, (forall e, In e b -> get (fst e) a = Some (snd e)) -> spread a b = a.
Proof.
  unfold spread. induction b as [|[k v] r IH]; simpl; intros a H; [reflexivity|].
  rewrite (set_same k v a) by (apply (H (k, v)); auto).
  apply IH. intros e He. apply H. auto.
Qed.

Lemma spread_nil_l b : wfKeys (keys b) = true -> spread [] b = b.
Proof. intros H. now rewrite spread_append. Qed.

End Spreads.

Lemma get_map_entries {A V : Type} (F : string * A -> V) (o : obj A) (k : string) :
  get k (map (fun kv => (fst kv, F kv)) o)
  = match get k o with Some t => Some (F (k, t)) | None => None end.
Proof.
  induction o as [|[k' t] r IH]; simpl; [reflexivity|].
  destruct (String.eqb_spec k k') as [->|_]; [reflexivity | exact IH].
Qed.

End MembershipFacts.

(* ================================================================== *)
(** ** Lowercasing and the reference syntax *)
(* ================================================================== *)

Module ReferenceFacts.
Import JsString JsObject Utils Index Theme Views.
Import JsStringFacts.

Lemma lowerChar_idempotent (c : ascii) : lowerChar (lowerChar c) = lowerChar c.
Proof.
  destruct c as [[] [] [] [] [] [] [] []]; reflexivity.
Qed.

Lemma toLowerCase_idempotent (s : string) :
  toLowerCase (toLowerCase s) = toLowerCase s.
Proof.
  induction s as [|c r IH]; simpl; [reflexivity|].
  now rewrite lowerChar_idempotent, IH.
Qed.



End ReferenceFacts.

(* ================================================================== *)
(** ** The variable tree and its readings *)
(* ================================================================== *)

Module VariableTreeFacts.
Import JsString JsObject Utils Index Theme Views.
Import JsObjectFacts JsStringFacts ListFacts UtilsFacts MembershipFacts.
Local Open Scope list_scope.

(** Induction on a variable tree node with the hypothesis for every
    listed node. *)
Lemma VarNode_forall_ind (P : VarNode -> Prop) :
  (forall val v r, P (VarLeaf val v r)) ->
  (forall val v r, Forall (fun kv => P (snd kv)) val -> P (VarTree val v r)) ->
  forall n, P n.
Proof.
  intros HL HN. fix IH 1. intros [val v r|val v r]; [apply HL|].
  apply HN. induction val as [|[k n] l IHl]; constructor.
  - apply IH.
  - exact IHl.
Qed.

Lemma map_pair_id {A B : Type} (l : list (A * B)) :
  map (fun kv => (fst kv, snd kv)) l = l.
Proof.
  rewrite <- (map_id l) at 2. apply map_ext. now intros [a b].
Qed.

Lemma valueOf_variableOf (t : Tree) :
  wfTree t = true ->
  forall suffix prefix key, valueOf (variableOf suffix t prefix key) = t.
Proof.
  induction t as [s|props IH] using Tree_forall_ind;
    intros Hwf suffix prefix key; [reflexivity|].
  apply wfTree_Node in Hwf as [Hk Hc].
  rewrite variableOf_Node. simpl valueOf.
  rewrite makeObjectVariables_map by exact Hk.
  rewrite map_map. simpl. f_equal.
  rewrite <- (map_pair_id props) at 2.
  apply map_ext_in. intros kv Hin.
  rewrite Forall_forall in IH, Hc. now rewrite IH by auto.
Qed.

Lemma refsWellFormed_head (name : string) :
  startsWith "--" ("--" ++ name)
  && String.eqb ("var(--" ++ name ++ ")") ("var(" ++ ("--" ++ name) ++ ")")
  = true.
Proof.
  simpl. rewrite String.eqb_refl, andb_true_r. destruct name; reflexivity.
Qed.

Lemma refsWellFormed_variableOf (t : Tree) :
  forall suffix prefix key,
    refsWellFormed (variableOf suffix t prefix key) = true.
Proof.
  induction t as [s|props IH] using Tree_forall_ind; intros suffix prefix key.
  - cbn [variableOf refsWellFormed var refVar].
    now rewrite refsWellFormed_head.
  - rewrite variableOf_Node. cbn [refsWellFormed var refVar].
    rewrite refsWellFormed_head. cbn [andb].
    apply forallb_forall. intros e He.
    unfold makeObjectVariables in He.
    apply in_fold_set in He as [[]|[x [Hx ->]]]. cbn [snd fst].
    rewrite Forall_forall in IH. now apply IH.
Qed.

(** Whatever the flattening of a node's value map lists is the name
    and the value of one of the node's leaves. *)
Lemma treeWalk_sound (vt : obj VarNode) :
  Forall (fun kv => forall e,
            In e (flatOf (var (snd kv)) (colorOf (snd kv))) ->
            In e (leafEntries (snd kv))) vt ->
  forall e, In e (treeWalk (varColorMap vt)) -> In e (leafEntriesOf vt).
Proof.
  intros IH e He. unfold treeWalk in He.
  apply in_fold_spread in He as [[]|[[k t] [Hkt He]]]. simpl in He.
  unfold varColorMap in Hkt.
  apply in_fold_set in Hkt as [[]|[x [Hx [= -> ->]]]].
  unfold leafEntriesOf. apply in_flat_map. exists x. split; [exact Hx|].
  rewrite Forall_forall in IH. now apply IH.
Qed.

Lemma flatOf_sound (n : VarNode) :
  forall e, In e (flatOf (var n) (colorOf n)) -> In e (leafEntries n).
Proof.
  induction n as [val v r|val v r IH] using VarNode_forall_ind; intros e He.
  - exact He.
  - rewrite colorOf_VarTree, flatOf_Node in He.
    exact (treeWalk_sound val IH e He).
Qed.

Lemma leafValues_referenceOf (t : Tree) :
  wfTree t = true ->
  forall suffix prefix key,
    leafValues (referenceOf (variableOf suffix t prefix key))
    = map (fun n => ("var(" ++ n ++ ")")%string)
          (leafVars (variableOf suffix t prefix key)).
Proof.
  induction t as [s|props IH] using Tree_forall_ind;
    intros Hwf suffix prefix key; [reflexivity|].
  apply wfTree_Node in Hwf as [Hk Hc].
  rewrite variableOf_Node, referenceOf_VarTree, NamingFacts.leafVars_VarTree.
  rewrite keyVarMap_makeObjectVariables by exact Hk.
  rewrite makeObjectVariables_map by exact Hk.
  simpl leafValues. rewrite !flat_map_map, map_flat_map. simpl.
  apply flat_map_ext_in. intros kv Hin.
  rewrite Forall_forall in IH, Hc. now apply IH; auto.
Qed.

Lemma leafValues_keyVarMap (o : obj Tree) prefix suffix :
  wfObj o = true ->
  leafValues (Node (keyVarMap (makeObjectVariables o prefix suffix)))
  = map (fun n => ("var(" ++ n ++ ")")%string)
        (leafVarsOf (makeObjectVariables o prefix suffix)).
Proof.
  intros Hwf. apply wfTree_Node in Hwf as [Hk Hc].
  rewrite keyVarMap_makeObjectVariables by exact Hk.
  unfold leafVarsOf. rewrite makeObjectVariables_map by exact Hk.
  simpl leafValues. rewrite !flat_map_map, map_flat_map. simpl.
  apply flat_map_ext_in. intros kv Hin.
  rewrite Forall_forall in Hc. now apply leafValues_referenceOf; auto.
Qed.

Lemma prefixStr_extends (P key : string) :
  exists rest, prefixStr (Some (P ++ key)%string) = (P ++ rest)%string.
Proof.
  unfold prefixStr, truthyStr. simpl.
  destruct (String.eqb_spec (P ++ key)%string "") as [E|_]; simpl.
  - exists ""%string. apply append_eq_nil in E. subst P. reflexivity.
  - exists (key ++ "-")%string. apply append_assoc.
Qed.

(** Every leaf name below an entry starts with the prefix in force and
    ends with the suffix. *)
Lemma leafVars_affixes (t : Tree) :
  forall suffix prefix key n,
    In n (leafVars (variableOf suffix t prefix key)) ->
    exists mid, n = ("--" ++ prefixStr prefix ++ mid ++ suffixStr suffix)%string.
Proof.
  induction t as [s|props IH] using Tree_forall_ind;
    intros suffix prefix key n Hn.
  - simpl in Hn. destruct Hn as [<-|[]].
    exists (jsNameToCssName key). reflexivity.
  - rewrite variableOf_Node, NamingFacts.leafVars_VarTree in Hn.
    apply in_flat_map in Hn as [e [He Hn]].
    unfold makeObjectVariables in He.
    apply in_fold_set in He as [[]|[x [Hx ->]]]. simpl in Hn.
    rewrite Forall_forall in IH.
    destruct (IH x Hx _ _ _ _ Hn) as [mid ->].
    destruct (prefixStr_extends (prefixStr prefix) key) as [rest ->].
    exists (rest ++ mid)%string. now rewrite !append_assoc.
Qed.

(** The declarations below an entry are the names and values of the
    leaves of its variable tree node. *)
Lemma declarationsOf_entries (t : Tree) :
  wfTree t = true ->
  forall suffix prefix key,
    declarationsOf suffix t prefix key
    = leafEntries (variableOf suffix t prefix key).
Proof.
  induction t as [s|props IH] using Tree_forall_ind;
    intros Hwf suffix prefix key; [reflexivity|].
  apply wfTree_Node in Hwf as [Hk Hc].
  rewrite variableOf_Node. cbn [leafEntries declarationsOf].
  rewrite makeObjectVariables_map by exact Hk.
  rewrite flat_map_map. simpl.
  apply flat_map_ext_in. intros kv Hin.
  rewrite Forall_forall in IH, Hc. apply IH; auto.
Qed.

Lemma declarations_entries (o : obj Tree) prefix suffix :
  wfObj o = true ->
  declarations o prefix suffix
  = leafEntriesOf (makeObjectVariables o prefix suffix).
Proof.
  intros Hwf. apply wfTree_Node in Hwf as [Hk Hc].
  unfold declarations, leafEntriesOf.
  rewrite makeObjectVariables_map by exact Hk.
  rewrite flat_map_map. simpl.
  apply flat_map_ext_in. intros kv Hin.
  rewrite Forall_forall in Hc. apply declarationsOf_entries. exact (Hc kv Hin).
Qed.

Lemma declarationsOf_values (t : Tree) :
  forall suffix prefix key,
    map snd (declarationsOf suffix t prefix key) = leafValues t.
Proof.
  induction t as [s|props IH] using Tree_forall_ind;
    intros suffix prefix key; [reflexivity|].
  simpl. rewrite map_flat_map.
  apply flat_map_ext_in. intros kv Hin.
  rewrite Forall_forall in IH. now apply IH.
Qed.

Lemma declarations_values (o : obj Tree) prefix suffix :
  map snd (declarations o prefix suffix) = leafValues (Node o).
Proof.
  unfold declarations. simpl. rewrite map_flat_map.
  apply flat_map_ext_in. intros kv _. apply declarationsOf_values.
Qed.

Lemma refVar_variableOf suffix t prefix key :
  refVar (variableOf suffix t prefix key)
  = ("var(" ++ var (variableOf suffix t prefix key) ++ ")")%string.
Proof. destruct t; reflexivity. Qed.



End VariableTreeFacts.

(* ================================================================== *)
(** ** Themes with the same key structure *)
(* ================================================================== *)

Module ShapeFacts.
Import JsString JsObject Utils Index Theme Views.
Import JsObjectFacts JsStringFacts ListFacts UtilsFacts MembershipFacts.
Local Open Scope list_scope.

(** Induction on two trees of one shape. *)
Lemma same_shape_ind (P : Tree -> Tree -> Prop) :
  (forall s1 s2, P (Leaf s1) (Leaf s2)) ->
  (forall p1 p2, Forall2 (sameEntry P) p1 p2 -> P (Node p1) (Node p2)) ->
  forall t1 t2, shapeOf t1 = shapeOf t2 -> P t1 t2.
Proof.
  intros HL HN t1.
  induction t1 as [s1|p1 IH] using Tree_forall_ind; intros [s2|p2] E;
    try discriminate; [apply HL|].
  apply HN. simpl in E. injection E as E. revert p2 E.
  induction p1 as [|a r1 IHr]; intros [|b r2] E; simpl in E;
    try discriminate; constructor.
  - injection E as E1 E2 _. inversion IH as [|? ? Ha _]; subst.
    split; [exact E1 | exact (Ha _ E2)].
  - injection E as _ _ E3. inversion IH as [|? ? _ Hr]; subst. now apply IHr.
Qed.

Lemma map_Forall2 {A B C : Type} (R : A -> B -> Prop) (f : A -> C) (g : B -> C)
  (l1 : list A) (l2 : list B) :
  Forall2 R l1 l2 -> (forall a b, R a b -> f a = g b) -> map f l1 = map g l2.
Proof.
  intros H Hfg. induction H as [|a b r1 r2 Hab _ IH]; simpl; [reflexivity|].
  now rewrite (Hfg a b Hab), IH.
Qed.

Lemma flat_map_Forall2 {A B C : Type} (R : A -> B -> Prop)
  (f : A -> list C) (g : B -> list C) (l1 : list A) (l2 : list B) :
  Forall2 R l1 l2 -> (forall a b, R a b -> f a = g b) ->
  flat_map f l1 = flat_map g l2.
Proof.
  intros H Hfg. induction H as [|a b r1 r2 Hab _ IH]; simpl; [reflexivity|].
  now rewrite (Hfg a b Hab), IH.
Qed.

Lemma forallb_Forall2 {A B : Type} (R : A -> B -> Prop)
  (f : A -> bool) (g : B -> bool) (l1 : list A) (l2 : list B) :
  Forall2 R l1 l2 -> (forall a b, R a b -> f a = g b) ->
  forallb f l1 = forallb g l2.
Proof.
  intros H Hfg. induction H as [|a b r1 r2 Hab _ IH]; simpl; [reflexivity|].
  now rewrite (Hfg a b Hab), IH.
Qed.

Lemma Forall2_wf (P : Tree -> Tree -> Prop) (p1 p2 : list (string * Tree)) :
  Forall2 (sameEntry P) p1 p2 ->
  Forall (fun kv => wfTree (snd kv) = true) p1 ->
  Forall (fun kv => wfTree (snd kv) = true) p2 ->
  Forall2 (sameEntry (fun t1 t2 =>
                        wfTree t1 = true /\ wfTree t2 = true /\ P t1 t2)) p1 p2.
Proof.
  induction 1 as [|a b r1 r2 [Hk Hab] _ IH]; intros H1 H2; constructor.
  - inversion H1; inversion H2; subst. repeat split; assumption.
  - inversion H1; inversion H2; subst. now apply IH.
Qed.

(** The references of an entry depend on its key structure only. *)
Lemma referenceOf_shape (t1 t2 : Tree) :
  shapeOf t1 = shapeOf t2 ->
  wfTree t1 = true -> wfTree t2 = true ->
  forall suffix prefix key,
    referenceOf (variableOf suffix t1 prefix key)
    = referenceOf (variableOf suffix t2 prefix key).
Proof.
  revert t1 t2. apply (same_shape_ind (fun t1 t2 =>
    wfTree t1 = true -> wfTree t2 = true ->
    forall suffix prefix key,
      referenceOf (variableOf suffix t1 prefix key)
      = referenceOf (variableOf suffix t2 prefix key))).
  - reflexivity.
  - intros p1 p2 H W1 W2 suffix prefix key.
    apply wfTree_Node in W1 as [K1 C1]. apply wfTree_Node in W2 as [K2 C2].
    rewrite !variableOf_Node, !referenceOf_VarTree.
    rewrite !keyVarMap_makeObjectVariables by assumption. f_equal.
    apply (map_Forall2 _ _ _ _ _ (Forall2_wf _ _ _ H C1 C2)).
    intros [k1 a] [k2 b] [Hk (Wa & Wb & Hab)]. simpl in *. subst k2.
    now rewrite Hab.
Qed.

Lemma same_shape_entries (o1 o2 : obj Tree) :
  shapeOf (Node o1) = shapeOf (Node o2) ->
  Forall2 (sameEntry (fun t1 t2 => shapeOf t1 = shapeOf t2)) o1 o2.
Proof.
  simpl. intros E. injection E as E. revert o2 E.
  induction o1 as [|a r IH]; intros [|b r2] E; simpl in E;
    try discriminate; constructor.
  - injection E as E1 E2 _. now split.
  - injection E as _ _ E3. now apply IH.
Qed.

Lemma keyVarMap_shape (o1 o2 : obj Tree) prefix suffix :
  shapeOf (Node o1) = shapeOf (Node o2) ->
  wfObj o1 = true -> wfObj o2 = true ->
  keyVarMap (makeObjectVariables o1 prefix suffix)
  = keyVarMap (makeObjectVariables o2 prefix suffix).
Proof.
  intros E W1 W2.
  pose proof (same_shape_entries _ _ E) as F.
  apply wfTree_Node in W1 as [K1 C1]. apply wfTree_Node in W2 as [K2 C2].
  rewrite !keyVarMap_makeObjectVariables by assumption.
  apply (map_Forall2 _ _ _ _ _ (Forall2_wf _ _ _ F C1 C2)).
  intros [k1 a] [k2 b] [Hk (Wa & Wb & Hab)]. simpl in *. subst k2.
  now rewrite (referenceOf_shape a b Hab Wa Wb).
Qed.

(** The declared names below an entry depend on its key structure
    only. *)
Lemma declarationsOf_shape (t1 t2 : Tree) :
  shapeOf t1 = shapeOf t2 ->
  forall suffix prefix key,
    map fst (declarationsOf suffix t1 prefix key)
    = map fst (declarationsOf suffix t2 prefix key).
Proof.
  revert t1 t2. apply (same_shape_ind (fun t1 t2 =>
    forall suffix prefix key,
      map fst (declarationsOf suffix t1 prefix key)
      = map fst (declarationsOf suffix t2 prefix key))).
  - reflexivity.
  - intros p1 p2 H suffix prefix key. simpl.
    rewrite !map_flat_map.
    apply (flat_map_Forall2 _ _ _ _ _ H).
    intros [k1 a] [k2 b] [Hk Hab]. simpl in *. subst k2. apply Hab.
Qed.

Lemma siblingsDistinctOf_shape (t1 t2 : Tree) :
  shapeOf t1 = shapeOf t2 ->
  forall suffix prefix key,
    siblingsDistinctOf suffix t1 prefix key
    = siblingsDistinctOf suffix t2 prefix key.
Proof.
  revert t1 t2. apply (same_shape_ind (fun t1 t2 =>
    forall suffix prefix key,
      siblingsDistinctOf suffix t1 prefix key
      = siblingsDistinctOf suffix t2 prefix key)).
  - reflexivity.
  - intros p1 p2 H suffix prefix key. simpl. f_equal.
    + f_equal. apply (map_Forall2 _ _ _ _ _ H).
      intros [k1 a] [k2 b] [Hk _]. simpl in *. now subst k2.
    + apply (forallb_Forall2 _ _ _ _ _ H).
      intros [k1 a] [k2 b] [Hk Hab]. simpl in *. subst k2. apply Hab.
Qed.

Lemma declarations_shape (o1 o2 : obj Tree) prefix suffix :
  shapeOf (Node o1) = shapeOf (Node o2) ->
  map fst (declarations o1 prefix suffix) = map fst (declarations o2 prefix suffix).
Proof.
  intros E. unfold declarations. rewrite !map_flat_map.
  apply (flat_map_Forall2 _ _ _ _ _ (same_shape_entries _ _ E)).
  intros [k1 a] [k2 b] [Hk Hab]. simpl in *. subst k2.
  now apply declarationsOf_shape.
Qed.

(** Whether names collide depends on the key structure only. *)
Lemma namesDistinct_shape (o1 o2 : obj Tree) prefix suffix :
  shapeOf (Node o1) = shapeOf (Node o2) ->
  namesDistinct o1 prefix suffix = namesDistinct o2 prefix suffix.
Proof.
  intros E. unfold namesDistinct.
  rewrite (declarations_shape _ _ prefix suffix E).
  pose proof (same_shape_entries _ _ E) as F.
  assert (A : map (fun kv => cssName prefix suffix (fst kv)) o1
              = map (fun kv => cssName prefix suffix (fst kv)) o2).
  { apply (map_Forall2 _ _ _ _ _ F).
    intros [k1 a] [k2 b] [Hk _]. simpl in *. now subst k2. }
  assert (B : forallb (fun kv => siblingsDistinctOf suffix (snd kv) prefix (fst kv)) o1
              = forallb (fun kv => siblingsDistinctOf suffix (snd kv) prefix (fst kv)) o2).
  { apply (forallb_Forall2 _ _ _ _ _ F).
    intros [k1 a] [k2 b] [Hk Hab]. simpl in *. subst k2.
    now apply siblingsDistinctOf_shape. }
  now rewrite A, B.
Qed.

End ShapeFacts.

(* ================================================================== *)
(** ** The reduce of [mergeThemes] *)
(* ================================================================== *)

Module MergeFacts.
Import JsString JsObject Utils Index Theme Views.
Import JsObjectFacts JsStringFacts ListFacts MembershipFacts IndexFacts.
Local Open Scope list_scope.


Lemma mergeReduce_fold valueAt ks :
  mergeReduce valueAt ks
  = bind (fold_left (mergeStep valueAt) ks (@Returned (obj JSValue) []))
         (fun o => Returned (VObj o)).
Proof. reflexivity. Qed.

(** Once a step has thrown, the reduce has thrown. *)
Lemma fold_TypeError valueAt ks :
  fold_left (mergeStep valueAt) ks TypeError = TypeError.
Proof. induction ks; simpl; auto. Qed.






(** When every step throws, the reduce over at least one key throws. *)
Lemma mergeReduce_all_throw valueAt ks key :
  (forall k, valueAt k = TypeError) -> In key ks ->
  mergeReduce valueAt ks = TypeError.
Proof.
  intros H Hin. rewrite mergeReduce_fold.
  destruct ks as [|k r]; [contradiction|]. simpl.
  rewrite (H k). simpl. now rewrite fold_TypeError.
Qed.



Lemma fold_all_returned valueAt (f : string -> JSValue) ks :
  (forall key, In key ks -> valueAt key = Returned (f key)) ->
  forall acc,
    fold_left (mergeStep valueAt) ks (Returned acc)
    = Returned (fold_left (fun a k => set k (f k) a) ks acc).
Proof.
  induction ks as [|k r IH]; simpl; intros H acc; [reflexivity|].
  rewrite (H k) by auto. simpl. apply IH. intros. apply H. auto.
Qed.

Lemma in_mergedKeys old new key :
  In key (mergedKeys old new)
  <-> In key (keys (ownProps old)) \/ In key (keys (ownProps new)).
Proof.
  unfold mergedKeys. rewrite !in_keys_spread. simpl. tauto.
Qed.

Lemma getProp_nullish (v : JSValue) (key : string) :
  nullish v = true -> getProp v key = TypeError.
Proof. destruct v; simpl; intros H; try discriminate; reflexivity. Qed.





Lemma ownProps_readable (v : JSValue) (key : string) :
  In key (keys (ownProps v)) -> nullish v = false.
Proof. destruct v; simpl; intros H; try contradiction; reflexivity. Qed.


Lemma forallb_false {A : Type} (f : A -> bool) (l : list A) :
  forallb f l = false -> exists x, In x l /\ f x = false.
Proof.
  induction l as [|a r IH]; simpl; [discriminate|].
  destruct (f a) eqn:E; simpl; intros H.
  - destruct (IH H) as [x [Hx Fx]]. exists x. auto.
  - exists a. auto.
Qed.


Lemma orElse_undefined (c : Completion JSValue) : orElse VUndefined c = c.
Proof. reflexivity. Qed.

(** What one step reads for a key, when the new side is an object. *)
Lemma valueAt_object (old : JSValue) (props : obj JSValue) (key : string) :
  bind (getProp (VObj props) key) (fun nv =>
    if instanceofObject nv
    then bind (getProp old key) (fun ov => mergeThemes ov nv)
    else orElse nv (getProp old key))
  = match get key props with
    | Some (VObj sub) =>
        bind (getProp old key) (fun ov => mergeThemes ov (VObj sub))
    | Some nv => orElse nv (getProp old key)
    | None => if inheritedByObject key then Inherited else getProp old key
    end.
Proof.
  cbn [getProp]. destruct (get key props) as [[| |b|n|s|sub]|]; try reflexivity.
  destruct (inheritedByObject key); reflexivity.
Qed.







(** An object is the list of its keys with the values read under
    them. *)
Lemma entries_of_keys (o : obj JSValue) :
  NoDup (keys o) ->
  map (fun k => (k, orUndefined (get k o))) (keys o) = o.
Proof.
  induction o as [|[k v] r IH]; simpl; intros Hd; [reflexivity|].
  inversion Hd as [|? ? Hk Hr]; subst.
  rewrite String.eqb_refl. simpl. f_equal.
  rewrite <- (IH Hr) at 2. apply map_ext_in. intros k' Hin.
  destruct (String.eqb_spec k' k) as [->|_]; [contradiction | reflexivity].
Qed.

(** With [undefined] or [null] for the new object, the first key of
    the old side makes the reduce throw. *)
Lemma mergeThemes_nullish_new (old new : JSValue) (key : string) :
  nullish new = true -> In key (keys (ownProps old)) ->
  mergeThemes old new = TypeError.
Proof.
  intros N Hin. rewrite mergeThemes_eq.
  apply (mergeReduce_all_throw _ _ key).
  - intros k. now rewrite (getProp_nullish _ _ N).
  - apply in_mergedKeys. auto.
Qed.

End MergeFacts.

(* ================================================================== *)
(** ** Properties *)
(* ================================================================== *)

Import JsString JsObject Utils Index Theme Examples.

(** *** The name deriver *)

Example jsNameToCssName_fontWeight : jsNameToCssName "fontWeight" = "font-weight".
Proof. reflexivity. Qed.

Example jsNameToCssName_empty : jsNameToCssName "" = "".
Proof. reflexivity. Qed.

(** The first character never starts a new segment. *)
Example jsNameToCssName_title_case :
  jsNameToCssName "Title Case" = "title- -case".
Proof. reflexivity. Qed.

(** C4. On the snake-case name [bg_color] the name deriver returns
    [bg-_color]: the split keeps the underscore at the head of the second
    segment and the join adds a hyphen in front of it, so the separator
    is not replaced and the result is not [bg-color]. *)
Theorem jsNameToCssName_keeps_underscore :
  jsNameToCssName "bg_color" = "bg-_color"
  /\ jsNameToCssName "bg_color" <> "bg-color".
Proof. split; [reflexivity | discriminate]. Qed.

(** *** The variable tree and its projections *)

(** C5. For a theme tree [T], the reference map
    [keyVarMap (makeObjectVariables T)] has the key structure of [T]:
    the same keys at every level, in the same order, holding a leaf
    where [T] holds a leaf and a subtree where [T] holds a subtree. *)
Theorem keyVarMap_preserves_shape (T : obj Tree) (prefix suffix : option string) :
  wfObj T = true ->
  shapeOf (Node (keyVarMap (makeObjectVariables T prefix suffix)))
  = shapeOf (Node T).
Proof.
  intros Hwf. apply UtilsFacts.wfTree_Node in Hwf as [Hk Hc].
  rewrite UtilsFacts.keyVarMap_makeObjectVariables by exact Hk.
  simpl. f_equal. rewrite map_map. simpl.
  apply map_ext_in. intros kv Hin.
  rewrite Forall_forall in Hc.
  rewrite (UtilsFacts.shapeOf_reference_variable _ (Hc kv Hin)). reflexivity.
Qed.

Lemma keyVarMap_preserves_shape_witness :
  shapeOf (Node (keyVarMap (makeObjectVariables readmeTheme None None)))
  = shapeOf (Node readmeTheme).
Proof. apply keyVarMap_preserves_shape. reflexivity. Defined.


(** A key with a hyphen, an empty key and a camel-case key collide with
    a nested path as well. *)
Example property_names_collide_hyphen :
  leafVarsOf (makeObjectVariables
                [ ("a-b", Leaf "x"); ("a", Node [ ("b", Leaf "y") ]) ] None None)
  = ["--a-b"; "--a-b"].
Proof. reflexivity. Qed.

Example property_names_collide_empty_key :
  leafVarsOf (makeObjectVariables
                [ ("", Node [ ("a", Leaf "x") ]); ("a", Leaf "y") ] None None)
  = ["--a"; "--a"].
Proof. reflexivity. Qed.

Example property_names_collide_camel :
  leafVarsOf (makeObjectVariables
                [ ("fooBar", Leaf "x"); ("foo", Node [ ("bar", Leaf "y") ]) ] None None)
  = ["--foo-bar"; "--foo-bar"].
Proof. reflexivity. Qed.



(** *** The entry point *)

(** C3, as stated, fails: with dark [{ a: "x" }] and light
    [{ a: { b: "y" } }], [vars.a] is the light subtree, not the dark
    reference [var(--a)]. *)
Lemma vars_keeps_light_entry :
  get "a" (keyVarMap (makeObjectVariables leafDark None None))
    = Some (Leaf "var(--a)")
  /\ get "a" (vars (makeDarkMode (Some leafDark) (Some subtreeLight)))
    = Some (Node [("b", Leaf "var(--a-b)")])
  /\ get "a" (vars (makeDarkMode (Some leafDark) (Some subtreeLight)))
    <> get "a" (keyVarMap (makeObjectVariables leafDark None None)).
Proof. repeat split; try reflexivity. discriminate. Qed.

(** C3, amended. [vars] is the shallow merge of the light reference
    map over the dark reference map: a top-level key that the light
    variant defines holds the light entry, any other key holds the dark
    entry. *)
Theorem vars_light_over_dark (dark light : option (obj Tree)) (key : string) :
  get key (vars (makeDarkMode dark light))
  = match get key (keyVarMap (makeObjectVariables (orEmpty light) None None)) with
    | Some entry => Some entry
    | None => get key (keyVarMap (makeObjectVariables (orEmpty dark) None None))
    end.
Proof.
  unfold makeDarkMode. simpl vars.
  rewrite JsObjectFacts.get_spread by apply IndexFacts.NoDup_keys_keyVarMap.
  rewrite JsObjectFacts.get_spread by apply IndexFacts.NoDup_keys_keyVarMap.
  simpl. destruct (get key (keyVarMap (makeObjectVariables (orEmpty dark) None None)));
    reflexivity.
Qed.

(** C2, as stated, fails: for the light tree
    [{ foo: "2", x: "3", Foo: { a: "1" } }] the value map keeps one entry
    [--foo], which the subtree [Foo] takes over; the stylesheet declares
    [--Foo-a] before [--x] and has no declaration for the leaf [foo]. *)
Lemma css_not_depth_first :
  wfObj shadowTheme = true
  /\ css (makeDarkMode (Some []) (Some shadowTheme))
     = ":root { --Foo-a: 1;" ++ newline ++ "--x: 3; }"
       ++ "@media (prefers-color-scheme: dark){ :root {  } }"
  /\ stylesheet [] shadowTheme
     = ":root { --foo: 2;" ++ newline ++ "--x: 3;" ++ newline ++ "--Foo-a: 1; }"
       ++ "@media (prefers-color-scheme: dark){ :root {  } }"
  /\ css (makeDarkMode (Some []) (Some shadowTheme)) <> stylesheet [] shadowTheme.
Proof. repeat split; try reflexivity. discriminate. Qed.

(** C2, amended. When in neither tree two entries of one object or two
    leaves get the same generated property name, [css] is exactly
    [:root { <light> }@media (prefers-color-scheme: dark){ :root { <dark> } }],
    each section holding the [--name: value;] lines of that variant's
    leaves, joined by newlines, in depth-first key order. *)
Theorem css_is_stylesheet (dark light : option (obj Tree)) :
  wfObj (orEmpty dark) = true ->
  wfObj (orEmpty light) = true ->
  namesDistinct (orEmpty dark) None None = true ->
  namesDistinct (orEmpty light) None None = true ->
  css (makeDarkMode dark light) = stylesheet (orEmpty dark) (orEmpty light).
Proof.
  intros Hwd Hwl Hnd Hnl.
  unfold makeDarkMode, stylesheet. simpl css. unfold objectToCss.
  rewrite (StylesheetFacts.treeWalk_declarations _ None None Hwd Hnd).
  rewrite (StylesheetFacts.treeWalk_declarations _ None None Hwl Hnl).
  reflexivity.
Qed.

Lemma css_is_stylesheet_witness :
  css (makeDarkMode (Some readmeDark) (Some readmeTheme))
  = stylesheet readmeDark readmeTheme.
Proof. apply (css_is_stylesheet (Some readmeDark) (Some readmeTheme)); reflexivity. Defined.

(** *** The resolver *)

(** C10. Without a rendering environment, [resolve] returns every input
    string as it is: the five characters of [value.substring(0, 5)]
    never equal the six of ['var(--'], so the fallback table is never
    read, also not for a reference [var(--name)]. *)
Theorem resolve_identity_without_window
  (dark light : option (obj Tree)) (value : string) :
  resolve (makeDarkMode dark light) None value = Some value.
Proof. apply IndexFacts.resolveFactory_returns_value. Qed.

(** C9. [resolve] returns a string that does not begin with the
    reference prefix ['var(--'] unchanged, with and without a rendering
    environment (a string that does not begin with the five characters
    [var(-] is such a string). *)
Theorem resolve_passthrough
  (dark light : option (obj Tree)) (window : option Window) (value : string) :
  startsWith "var(--" value = false ->
  resolve (makeDarkMode dark light) window value = Some value.
Proof. intros _. apply IndexFacts.resolveFactory_returns_value. Qed.

Lemma resolve_passthrough_witness :
  resolve (makeDarkMode (Some textDark) (Some textLight)) None "black"
  = Some "black".
Proof. apply resolve_passthrough. reflexivity. Defined.

(** C1. For dark [{ text: "white" }] and light [{ text: "black" }] and
    no rendering environment, [resolve("var(--text)")] returns the
    reference itself, although the fallback table holds [black] under
    [--text]. *)
Theorem resolve_reference_unresolved :
  resolve (makeDarkMode (Some textDark) (Some textLight)) None "var(--text)"
    = Some "var(--text)"
  /\ get "--text"
       (treeWalk (varColorMap (makeObjectVariables textLight None None)))
     = Some "black".
Proof. split; reflexivity. Qed.

(** *** The merger *)

(** C7. [mergeThemes({a:1, b:{c:2, d:3}}, {b:{c:9}})] returns
    [{a:1, b:{c:9, d:3}}]: [a] and [b.d], which only the old tree has,
    survive, and [b.c] takes the new tree's value. *)
Theorem mergeThemes_example :
  mergeThemes oldTheme newTheme
  = Returned
      (VObj [ ("a", VNum 1); ("b", VObj [ ("c", VNum 9); ("d", VNum 3) ]) ]).
Proof. reflexivity. Qed.

(** C8. [mergeThemes] throws when the new tree has, under a key the old
    tree lacks, a subtree that holds a falsy leaf or a further subtree:
    the old side is then [undefined], and reading a property of it is a
    [TypeError].  With only truthy leaves in that subtree it returns. *)
Theorem mergeThemes_throws_on_missing_subtree :
  mergeThemes oldFlat newFalsy = TypeError
  /\ mergeThemes oldFlat newDeep = TypeError
  /\ mergeThemes oldFlat newTheme
     = Returned (VObj [ ("a", VNum 1); ("b", VObj [ ("c", VNum 9) ]) ]).
Proof. repeat split; reflexivity. Qed.

(* ================================================================== *)
(** ** Further properties of the code *)
(* ================================================================== *)

Import Views.

(** *** The name deriver *)

(** X1. The name deriver keeps every character of the name, puts a
    hyphen in front of every uppercase letter, underscore and space
    behind the first character (never in front of the first), and
    lowercases the whole. *)
Theorem jsNameToCssName_by_characters (name : string) :
  jsNameToCssName name = toLowerCase (hyphenate name).
Proof. apply JsStringFacts.jsNameToCssName_hyphenate. Qed.

(** X2. A derived name is lowercase already: lowercasing it again
    changes nothing. *)
Theorem jsNameToCssName_lowercase (name : string) :
  toLowerCase (jsNameToCssName name) = jsNameToCssName name.
Proof. apply ReferenceFacts.toLowerCase_idempotent. Qed.

(** *** The variable tree *)

(** X3. The [value] fields of the variable tree built from a theme
    tree are the theme tree itself: same keys, same order, same leaf
    strings. *)
Theorem makeObjectVariables_keeps_values
  (T : obj Tree) (prefix suffix : option string) :
  wfObj T = true ->
  valuesOf (makeObjectVariables T prefix suffix) = T.
Proof.
  intros Hwf. apply UtilsFacts.wfTree_Node in Hwf as [Hk Hc].
  unfold valuesOf. rewrite UtilsFacts.makeObjectVariables_map by exact Hk.
  rewrite map_map. simpl.
  rewrite <- (VariableTreeFacts.map_pair_id T) at 2.
  apply map_ext_in. intros kv Hin.
  rewrite Forall_forall in Hc.
  now rewrite VariableTreeFacts.valueOf_variableOf by auto.
Qed.

Lemma makeObjectVariables_keeps_values_witness :
  valuesOf (makeObjectVariables readmeTheme (Some "c") None) = readmeTheme.
Proof. apply makeObjectVariables_keeps_values. reflexivity. Defined.

(** X4. [makeObjectVariables] lists a node under exactly the keys of
    the object: under a key of the object a node whose [var] is [--]
    with the prefix string, the derived name of the key and the suffix
    string, whose [refVar] is [var(<var>)], and whose [value] field
    holds what the object holds under the key; under any other key
    nothing. *)
Theorem makeObjectVariables_lookup
  (T : obj Tree) (prefix suffix : option string) (k : string) :
  wfObj T = true ->
  match get k T with
  | None => get k (makeObjectVariables T prefix suffix) = None
  | Some t =>
      exists n,
        get k (makeObjectVariables T prefix suffix) = Some n
        /\ var n = "--" ++ prefixStr prefix ++ jsNameToCssName k ++ suffixStr suffix
        /\ refVar n = "var(" ++ var n ++ ")"
        /\ valueOf n = t
  end.
Proof.
  intros Hwf. apply UtilsFacts.wfTree_Node in Hwf as [Hk Hc].
  rewrite UtilsFacts.makeObjectVariables_map by exact Hk.
  rewrite (MembershipFacts.get_map_entries
             (fun kv => variableOf suffix (snd kv) prefix (fst kv))).
  destruct (get k T) as [t|] eqn:G; [|reflexivity].
  exists (variableOf suffix t prefix k). cbn [fst snd]. repeat split.
  - apply UtilsFacts.var_variableOf.
  - apply VariableTreeFacts.refVar_variableOf.
  - apply VariableTreeFacts.valueOf_variableOf.
    apply JsObjectFacts.get_Some_In in G.
    rewrite Forall_forall in Hc. exact (Hc _ G).
Qed.

Lemma makeObjectVariables_lookup_witness :
  match get "grad" readmeTheme with
  | None => get "grad" (makeObjectVariables readmeTheme (Some "c") (Some "x")) = None
  | Some t =>
      exists n,
        get "grad" (makeObjectVariables readmeTheme (Some "c") (Some "x")) = Some n
        /\ var n = "--" ++ prefixStr (Some "c") ++ jsNameToCssName "grad"
                   ++ suffixStr (Some "x")
        /\ refVar n = "var(" ++ var n ++ ")"
        /\ valueOf n = t
  end.
Proof. apply (makeObjectVariables_lookup readmeTheme). reflexivity. Defined.

(** X5. In a variable tree built by [makeObjectVariables], every node,
    leaf or subtree, at every depth, has a [var] that starts with two
    hyphens and the [refVar] [var(<var>)]. *)
Theorem makeObjectVariables_refs_well_formed
  (T : obj Tree) (prefix suffix : option string) :
  forallb (fun kv => refsWellFormed (snd kv))
          (makeObjectVariables T prefix suffix) = true.
Proof.
  apply forallb_forall. intros e He. unfold makeObjectVariables in He.
  apply MembershipFacts.in_fold_set in He as [[]|[x [Hx ->]]].
  apply VariableTreeFacts.refsWellFormed_variableOf.
Qed.

(** X6. Every leaf's property name starts with [--] and the prefix
    string in force ([`${prefix}-`], or nothing without a prefix) and
    ends with the suffix string ([`-${suffix}`], or nothing). *)
Theorem makeObjectVariables_affixes
  (T : obj Tree) (prefix suffix : option string) :
  Forall (fun n => exists mid,
            n = "--" ++ prefixStr prefix ++ mid ++ suffixStr suffix)
         (leafVarsOf (makeObjectVariables T prefix suffix)).
Proof.
  apply Forall_forall. intros n Hn. unfold leafVarsOf in Hn.
  apply in_flat_map in Hn as [e [He Hn]]. unfold makeObjectVariables in He.
  apply MembershipFacts.in_fold_set in He as [[]|[x [Hx ->]]].
  exact (VariableTreeFacts.leafVars_affixes _ _ _ _ _ Hn).
Qed.

(** *** The value map and the references *)

(** X7. For every variable tree, with or without colliding names,
    every entry of the flattened value map is the property name and the
    value of one of the tree's leaves: the stylesheet and the resolver
    table hold nothing else. *)
Theorem treeWalk_varColorMap_sound (vt : obj VarNode) :
  incl (treeWalk (varColorMap vt)) (leafEntriesOf vt).
Proof.
  intros e He. apply (VariableTreeFacts.treeWalk_sound vt); [|exact He].
  apply Forall_forall. intros kv _. apply VariableTreeFacts.flatOf_sound.
Qed.

(** X8. Without name collisions, the flattened value map lists the
    name and the value of every leaf of the variable tree exactly once,
    depth first in key order; its values are the leaf strings of the
    theme in that order. *)
Theorem treeWalk_varColorMap_complete
  (T : obj Tree) (prefix suffix : option string) :
  wfObj T = true ->
  namesDistinct T prefix suffix = true ->
  treeWalk (varColorMap (makeObjectVariables T prefix suffix))
  = leafEntriesOf (makeObjectVariables T prefix suffix)
  /\ map snd (treeWalk (varColorMap (makeObjectVariables T prefix suffix)))
     = leafValues (Node T).
Proof.
  intros Hwf Hn.
  rewrite StylesheetFacts.treeWalk_declarations by assumption. split.
  - now apply VariableTreeFacts.declarations_entries.
  - apply VariableTreeFacts.declarations_values.
Qed.

Lemma treeWalk_varColorMap_complete_witness :
  treeWalk (varColorMap (makeObjectVariables readmeTheme None None))
  = leafEntriesOf (makeObjectVariables readmeTheme None None)
  /\ map snd (treeWalk (varColorMap (makeObjectVariables readmeTheme None None)))
     = leafValues (Node readmeTheme).
Proof. apply treeWalk_varColorMap_complete; reflexivity. Defined.

(** X9. Without name collisions, the references handed out in the
    reference map are, leaf by leaf in depth-first order, [var(<name>)]
    for exactly the property names the flattened value map declares. *)
Theorem references_name_declared_properties
  (T : obj Tree) (prefix suffix : option string) :
  wfObj T = true ->
  namesDistinct T prefix suffix = true ->
  leafValues (Node (keyVarMap (makeObjectVariables T prefix suffix)))
  = map (fun name => "var(" ++ name ++ ")")
        (keys (treeWalk (varColorMap (makeObjectVariables T prefix suffix)))).
Proof.
  intros Hwf Hn.
  rewrite VariableTreeFacts.leafValues_keyVarMap by exact Hwf.
  rewrite StylesheetFacts.treeWalk_declarations by assumption.
  unfold keys. now rewrite NamingFacts.declarations_names by exact Hwf.
Qed.

Lemma references_name_declared_properties_witness :
  leafValues (Node (keyVarMap (makeObjectVariables readmeTheme None None)))
  = map (fun name => "var(" ++ name ++ ")")
        (keys (treeWalk (varColorMap (makeObjectVariables readmeTheme None None)))).
Proof. apply references_name_declared_properties; reflexivity. Defined.

(** X10. When the dark and the light theme have the same key
    structure and the names of the light theme do not collide, both
    flattened value maps list the same property names in the same
    order: the dark block overrides exactly what the light block
    declares. *)
Theorem same_shape_same_properties (dark light : obj Tree)
  (prefix suffix : option string) :
  wfObj dark = true -> wfObj light = true ->
  shapeOf (Node dark) = shapeOf (Node light) ->
  namesDistinct light prefix suffix = true ->
  keys (treeWalk (varColorMap (makeObjectVariables dark prefix suffix)))
  = keys (treeWalk (varColorMap (makeObjectVariables light prefix suffix))).
Proof.
  intros Wd Wl E Hl.
  assert (Hd : namesDistinct dark prefix suffix = true)
    by now rewrite (ShapeFacts.namesDistinct_shape dark light prefix suffix E).
  rewrite !StylesheetFacts.treeWalk_declarations by assumption.
  unfold keys. now apply ShapeFacts.declarations_shape.
Qed.

Lemma same_shape_same_properties_witness :
  keys (treeWalk (varColorMap (makeObjectVariables readmeDark None None)))
  = keys (treeWalk (varColorMap (makeObjectVariables readmeTheme None None))).
Proof. apply same_shape_same_properties; reflexivity. Defined.

(** *** The entry point *)

(** X11. When the dark and the light theme have the same key structure,
    their reference maps are equal, and [vars] is that map. *)
Theorem vars_of_same_shape (dark light : obj Tree) :
  wfObj dark = true -> wfObj light = true ->
  shapeOf (Node dark) = shapeOf (Node light) ->
  keyVarMap (makeObjectVariables dark None None)
  = keyVarMap (makeObjectVariables light None None)
  /\ vars (makeDarkMode (Some dark) (Some light))
     = keyVarMap (makeObjectVariables light None None).
Proof.
  intros Wd Wl E.
  pose proof (ShapeFacts.keyVarMap_shape dark light None None E Wd Wl) as R.
  split; [exact R|].
  unfold makeDarkMode. cbn [vars orEmpty]. rewrite R.
  assert (K : wfKeys (keys (keyVarMap (makeObjectVariables light None None))) = true).
  { apply UtilsFacts.wfTree_Node in Wl as [Hk _].
    rewrite UtilsFacts.keyVarMap_makeObjectVariables by exact Hk.
    unfold keys. rewrite map_map. exact Hk. }
  rewrite (MembershipFacts.spread_nil_l _ K).
  apply MembershipFacts.spread_same. intros [k v] Hin.
  apply MembershipFacts.In_get; [apply IndexFacts.NoDup_keys_keyVarMap | exact Hin].
Qed.

Lemma vars_of_same_shape_witness :
  keyVarMap (makeObjectVariables readmeDark None None)
  = keyVarMap (makeObjectVariables readmeTheme None None)
  /\ vars (makeDarkMode (Some readmeDark) (Some readmeTheme))
     = keyVarMap (makeObjectVariables readmeTheme None None).
Proof. apply vars_of_same_shape; reflexivity. Defined.

(** X12. For a top-level key [k] under which the light theme holds a
    string, [vars[k]] is [var(--<derived name of k>)], whatever the
    dark theme holds. *)
Theorem vars_top_level_leaf
  (dark : option (obj Tree)) (light : obj Tree) (k v : string) :
  wfObj light = true ->
  get k light = Some (Leaf v) ->
  get k (vars (makeDarkMode dark (Some light)))
  = Some (Leaf ("var(--" ++ jsNameToCssName k ++ ")")).
Proof.
  intros Wl Hk. apply UtilsFacts.wfTree_Node in Wl as [Hwk _].
  unfold makeDarkMode. cbn [vars orEmpty].
  rewrite JsObjectFacts.get_spread by apply IndexFacts.NoDup_keys_keyVarMap.
  rewrite (UtilsFacts.keyVarMap_makeObjectVariables light) by exact Hwk.
  rewrite (MembershipFacts.get_map_entries
             (fun kv => referenceOf (variableOf None (snd kv) None (fst kv)))).
  rewrite Hk. cbn [referenceOf variableOf fst snd]. unfold cssName.
  cbn [prefixStr suffixStr truthyStr].
  change ("" ++ jsNameToCssName k ++ "") with (jsNameToCssName k ++ "").
  now rewrite JsStringFacts.append_nil_r.
Qed.

Lemma vars_top_level_leaf_witness :
  get "bg" (vars (makeDarkMode (Some leafDark) (Some readmeTheme)))
  = Some (Leaf ("var(--" ++ jsNameToCssName "bg" ++ ")")).
Proof. apply (vars_top_level_leaf _ readmeTheme "bg" "white"); reflexivity. Defined.

(** *** The resolver *)

(** X13. With a rendering environment as without one, [resolve] returns
    its input: the computed style of the document is never read. *)
Theorem resolve_ignores_window
  (dark light : option (obj Tree)) (window : option Window) (value : string) :
  resolve (makeDarkMode dark light) window value = Some value.
Proof. apply IndexFacts.resolveFactory_returns_value. Qed.


(** *** The merger *)

(** X15. Merging the empty object over a theme object none of whose
    keys names a member of [Object.prototype] returns the theme
    object. *)
Theorem mergeThemes_empty_new (o : obj JSValue) :
  wfKeys (keys o) = true ->
  forallb (fun k => negb (inheritedByObject k)) (keys o) = true ->
  mergeThemes (VObj o) (VObj []) = Returned (VObj o).
Proof.
  intros Hk Hi. rewrite IndexFacts.mergeThemes_eq.
  assert (K : mergedKeys (VObj o) (VObj []) = keys o).
  { unfold mergedKeys. cbn [ownProps].
    change (spread (spread [] o) []) with (spread [] o).
    now rewrite MembershipFacts.spread_nil_l. }
  rewrite K, MergeFacts.mergeReduce_fold.
  rewrite (MergeFacts.fold_all_returned _ (fun k => orUndefined (get k o))).
  - cbn [bind]. do 2 f_equal.
    rewrite (JsObjectFacts.fold_set_map (fun k => k)
               (fun k => orUndefined (get k o)))
      by (now rewrite map_id).
    apply MergeFacts.entries_of_keys.
    unfold wfKeys in Hk. apply andb_prop in Hk as [Hd _].
    now apply JsObjectFacts.distinct_NoDup.
  - intros key Hin. rewrite MergeFacts.valueAt_object. cbn [get].
    rewrite forallb_forall in Hi. specialize (Hi _ Hin).
    apply negb_true_iff in Hi. rewrite Hi. cbn [getProp].
    destruct (get key o) as [x|] eqn:G; [reflexivity|].
    apply JsObjectFacts.get_None_iff in G. contradiction.
Qed.

Lemma mergeThemes_empty_new_witness :
  mergeThemes oldTheme (VObj []) = Returned oldTheme.
Proof. apply mergeThemes_empty_new; reflexivity. Defined.







(** X19. With [undefined] or [null] in the place of the new object,
    [mergeThemes] throws as soon as the old side has a property, and
    returns the empty object when it has none. *)
Theorem mergeThemes_without_new (old new : JSValue) :
  nullish new = true ->
  mergeThemes old new
  = match ownProps old with
    | [] => Returned (VObj [])
    | _ :: _ => TypeError
    end.
Proof.
  intros N. destruct (ownProps old) as [|[k v] r] eqn:E.
  - destruct new; try discriminate; simpl; unfold mergedKeys;
      rewrite E; reflexivity.
  - apply (MergeFacts.mergeThemes_nullish_new old new k N).
    rewrite E. simpl. auto.
Qed.

Lemma mergeThemes_without_new_witness :
  mergeThemes oldTheme VUndefined
  = match ownProps oldTheme with
    | [] => Returned (VObj [])
    | _ :: _ => TypeError
    end.
Proof. apply mergeThemes_without_new. reflexivity. Defined.
